(** * Lecture transcript correction: the segmented correction-and-scoring
      pipeline

    A shallow embedding of the Python sources

    - [final_system.py]       ([LightweightCorrector], the output writer of [main]),
    - [nova_system.py]        ([NovaCorrector]),
    - [improved_evaluator.py] (segment extractor and refined scorer),
    - [batch_processor.py]    ([BatchProcessor.save_batch_stats]),

    followed by the properties of the specification that concern them.

    Conventions.  A Python [str] is the list of its code points
    ([list N]); [len] is [length].  Python floats that hold scores are
    exact rationals ([Q]): every score of the program is a short sum of
    decimal constants and one quotient of two string lengths; the
    lightweight score is computed on binary64 numbers as well.  The [re]
    module is a backtracking matcher over a small pattern syntax; the
    patterns of the sources are written in that syntax, one constructor per
    pattern element.  An operation that can raise returns [option].  The
    character classes behind [\d], [\w], [\s] and [str.strip] are the
    tables of the Unicode character database (version 14.0, as in CPython
    3.11), given as ranges of code points. *)

From Stdlib Require Import String Ascii.
From Stdlib Require Import List NArith ZArith QArith Qminmax Qabs Lia Lqa Bool.
From Stdlib Require Floats.
Import ListNotations.

Local Open Scope N_scope.

(** ** Code points, string literals and character classes *)

Module Unicode.

Definition codepoint := N.
Definition pystr := list codepoint.

Definition in_ranges (rs : list (N * N)) (c : codepoint) : bool :=
  existsb (fun r => (fst r <=? c) && (c <=? snd r)) rs.

(** Code points for which [str.isdecimal] holds (general category Nd),
    as inclusive ranges; this is the class the [re] module uses for [\d]. *)
Definition decimal_ranges : list (N * N) :=
  [(48, 57); (1632, 1641); (1776, 1785); (1984, 1993); (2406, 2415);
   (2534, 2543); (2662, 2671); (2790, 2799); (2918, 2927); (3046, 3055);
   (3174, 3183); (3302, 3311); (3430, 3439); (3558, 3567); (3664, 3673);
   (3792, 3801); (3872, 3881); (4160, 4169); (4240, 4249); (6112, 6121);
   (6160, 6169); (6470, 6479); (6608, 6617); (6784, 6793); (6800, 6809);
   (6992, 7001); (7088, 7097); (7232, 7241); (7248, 7257); (42528, 42537);
   (43216, 43225); (43264, 43273); (43472, 43481); (43504, 43513);
   (43600, 43609); (44016, 44025); (65296, 65305); (66720, 66729);
   (68912, 68921); (69734, 69743); (69872, 69881); (69942, 69951);
   (70096, 70105); (70384, 70393); (70736, 70745); (70864, 70873);
   (71248, 71257); (71360, 71369); (71472, 71481); (71904, 71913);
   (72016, 72025); (72784, 72793); (73040, 73049); (73120, 73129);
   (92768, 92777); (92864, 92873); (93008, 93017); (120782, 120831);
   (123200, 123209); (123632, 123641); (125264, 125273); (130032, 130041)]%N.

(** Code points for which [str.isalnum] holds, as inclusive ranges; the
    [re] module's [\w] is this class plus the underscore. *)
Definition alnum_ranges : list (N * N) :=
  [(48, 57); (65, 90); (97, 122); (170, 170); (178, 179); (181, 181);
   (185, 186); (188, 190); (192, 214); (216, 246); (248, 705); (710, 721);
   (736, 740); (748, 748); (750, 750); (880, 884); (886, 887); (890, 893);
   (895, 895); (902, 902); (904, 906); (908, 908); (910, 929); (931, 1013);
   (1015, 1153); (1162, 1327); (1329, 1366); (1369, 1369); (1376, 1416);
   (1488, 1514); (1519, 1522); (1568, 1610); (1632, 1641); (1646, 1647);
   (1649, 1747); (1749, 1749); (1765, 1766); (1774, 1788); (1791, 1791);
   (1808, 1808); (1810, 1839); (1869, 1957); (1969, 1969); (1984, 2026);
   (2036, 2037); (2042, 2042); (2048, 2069); (2074, 2074); (2084, 2084);
   (2088, 2088); (2112, 2136); (2144, 2154); (2160, 2183); (2185, 2190);
   (2208, 2249); (2308, 2361); (2365, 2365); (2384, 2384); (2392, 2401);
   (2406, 2415); (2417, 2432); (2437, 2444); (2447, 2448); (2451, 2472);
   (2474, 2480); (2482, 2482); (2486, 2489); (2493, 2493); (2510, 2510);
   (2524, 2525); (2527, 2529); (2534, 2545); (2548, 2553); (2556, 2556);
   (2565, 2570); (2575, 2576); (2579, 2600); (2602, 2608); (2610, 2611);
   (2613, 2614); (2616, 2617); (2649, 2652); (2654, 2654); (2662, 2671);
   (2674, 2676); (2693, 2701); (2703, 2705); (2707, 2728); (2730, 2736);
   (2738, 2739); (2741, 2745); (2749, 2749); (2768, 2768); (2784, 2785);
   (2790, 2799); (2809, 2809); (2821, 2828); (2831, 2832); (2835, 2856);
   (2858, 2864); (2866, 2867); (2869, 2873); (2877, 2877); (2908, 2909);
   (2911, 2913); (2918, 2927); (2929, 2935); (2947, 2947); (2949, 2954);
   (2958, 2960); (2962, 2965); (2969, 2970); (2972, 2972); (2974, 2975);
   (2979, 2980); (2984, 2986); (2990, 3001); (3024, 3024); (3046, 3058);
   (3077, 3084); (3086, 3088); (3090, 3112); (3114, 3129); (3133, 3133);
   (3160, 3162); (3165, 3165); (3168, 3169); (3174, 3183); (3192, 3198);
   (3200, 3200); (3205, 3212); (3214, 3216); (3218, 3240); (3242, 3251);
   (3253, 3257); (3261, 3261); (3293, 3294); (3296, 3297); (3302, 3311);
   (3313, 3314); (3332, 3340); (3342, 3344); (3346, 3386); (3389, 3389);
   (3406, 3406); (3412, 3414); (3416, 3425); (3430, 3448); (3450, 3455);
   (3461, 3478); (3482, 3505); (3507, 3515); (3517, 3517); (3520, 3526);
   (3558, 3567); (3585, 3632); (3634, 3635); (3648, 3654); (3664, 3673);
   (3713, 3714); (3716, 3716); (3718, 3722); (3724, 3747); (3749, 3749);
   (3751, 3760); (3762, 3763); (3773, 3773); (3776, 3780); (3782, 3782);
   (3792, 3801); (3804, 3807); (3840, 3840); (3872, 3891); (3904, 3911);
   (3913, 3948); (3976, 3980); (4096, 4138); (4159, 4169); (4176, 4181);
   (4186, 4189); (4193, 4193); (4197, 4198); (4206, 4208); (4213, 4225);
   (4238, 4238); (4240, 4249); (4256, 4293); (4295, 4295); (4301, 4301);
   (4304, 4346); (4348, 4680); (4682, 4685); (4688, 4694); (4696, 4696);
   (4698, 4701); (4704, 4744); (4746, 4749); (4752, 4784); (4786, 4789);
   (4792, 4798); (4800, 4800); (4802, 4805); (4808, 4822); (4824, 4880);
   (4882, 4885); (4888, 4954); (4969, 4988); (4992, 5007); (5024, 5109);
   (5112, 5117); (5121, 5740); (5743, 5759); (5761, 5786); (5792, 5866);
   (5870, 5880); (5888, 5905); (5919, 5937); (5952, 5969); (5984, 5996);
   (5998, 6000); (6016, 6067); (6103, 6103); (6108, 6108); (6112, 6121);
   (6128, 6137); (6160, 6169); (6176, 6264); (6272, 6276); (6279, 6312);
   (6314, 6314); (6320, 6389); (6400, 6430); (6470, 6509); (6512, 6516);
   (6528, 6571); (6576, 6601); (6608, 6618); (6656, 6678); (6688, 6740);
   (6784, 6793); (6800, 6809); (6823, 6823); (6917, 6963); (6981, 6988);
   (6992, 7001); (7043, 7072); (7086, 7141); (7168, 7203); (7232, 7241);
   (7245, 7293); (7296, 7304); (7312, 7354); (7357, 7359); (7401, 7404);
   (7406, 7411); (7413, 7414); (7418, 7418); (7424, 7615); (7680, 7957);
   (7960, 7965); (7968, 8005); (8008, 8013); (8016, 8023); (8025, 8025);
   (8027, 8027); (8029, 8029); (8031, 8061); (8064, 8116); (8118, 8124);
   (8126, 8126); (8130, 8132); (8134, 8140); (8144, 8147); (8150, 8155);
   (8160, 8172); (8178, 8180); (8182, 8188); (8304, 8305); (8308, 8313);
   (8319, 8329); (8336, 8348); (8450, 8450); (8455, 8455); (8458, 8467);
   (8469, 8469); (8473, 8477); (8484, 8484); (8486, 8486); (8488, 8488);
   (8490, 8493); (8495, 8505); (8508, 8511); (8517, 8521); (8526, 8526);
   (8528, 8585); (9312, 9371); (9450, 9471); (10102, 10131); (11264, 11492);
   (11499, 11502); (11506, 11507); (11517, 11517); (11520, 11557);
   (11559, 11559); (11565, 11565); (11568, 11623); (11631, 11631);
   (11648, 11670); (11680, 11686); (11688, 11694); (11696, 11702);
   (11704, 11710); (11712, 11718); (11720, 11726); (11728, 11734);
   (11736, 11742); (11823, 11823); (12293, 12295); (12321, 12329);
   (12337, 12341); (12344, 12348); (12353, 12438); (12445, 12447);
   (12449, 12538); (12540, 12543); (12549, 12591); (12593, 12686);
   (12690, 12693); (12704, 12735); (12784, 12799); (12832, 12841);
   (12872, 12879); (12881, 12895); (12928, 12937); (12977, 12991);
   (13312, 19903); (19968, 42124); (42192, 42237); (42240, 42508);
   (42512, 42539); (42560, 42606); (42623, 42653); (42656, 42735);
   (42775, 42783); (42786, 42888); (42891, 42954); (42960, 42961);
   (42963, 42963); (42965, 42969); (42994, 43009); (43011, 43013);
   (43015, 43018); (43020, 43042); (43056, 43061); (43072, 43123);
   (43138, 43187); (43216, 43225); (43250, 43255); (43259, 43259);
   (43261, 43262); (43264, 43301); (43312, 43334); (43360, 43388);
   (43396, 43442); (43471, 43481); (43488, 43492); (43494, 43518);
   (43520, 43560); (43584, 43586); (43588, 43595); (43600, 43609);
   (43616, 43638); (43642, 43642); (43646, 43695); (43697, 43697);
   (43701, 43702); (43705, 43709); (43712, 43712); (43714, 43714);
   (43739, 43741); (43744, 43754); (43762, 43764); (43777, 43782);
   (43785, 43790); (43793, 43798); (43808, 43814); (43816, 43822);
   (43824, 43866); (43868, 43881); (43888, 44002); (44016, 44025);
   (44032, 55203); (55216, 55238); (55243, 55291); (63744, 64109);
   (64112, 64217); (64256, 64262); (64275, 64279); (64285, 64285);
   (64287, 64296); (64298, 64310); (64312, 64316); (64318, 64318);
   (64320, 64321); (64323, 64324); (64326, 64433); (64467, 64829);
   (64848, 64911); (64914, 64967); (65008, 65019); (65136, 65140);
   (65142, 65276); (65296, 65305); (65313, 65338); (65345, 65370);
   (65382, 65470); (65474, 65479); (65482, 65487); (65490, 65495);
   (65498, 65500); (65536, 65547); (65549, 65574); (65576, 65594);
   (65596, 65597); (65599, 65613); (65616, 65629); (65664, 65786);
   (65799, 65843); (65856, 65912); (65930, 65931); (66176, 66204);
   (66208, 66256); (66273, 66299); (66304, 66339); (66349, 66378);
   (66384, 66421); (66432, 66461); (66464, 66499); (66504, 66511);
   (66513, 66517); (66560, 66717); (66720, 66729); (66736, 66771);
   (66776, 66811); (66816, 66855); (66864, 66915); (66928, 66938);
   (66940, 66954); (66956, 66962); (66964, 66965); (66967, 66977);
   (66979, 66993); (66995, 67001); (67003, 67004); (67072, 67382);
   (67392, 67413); (67424, 67431); (67456, 67461); (67463, 67504);
   (67506, 67514); (67584, 67589); (67592, 67592); (67594, 67637);
   (67639, 67640); (67644, 67644); (67647, 67669); (67672, 67702);
   (67705, 67742); (67751, 67759); (67808, 67826); (67828, 67829);
   (67835, 67867); (67872, 67897); (67968, 68023); (68028, 68047);
   (68050, 68096); (68112, 68115); (68117, 68119); (68121, 68149);
   (68160, 68168); (68192, 68222); (68224, 68255); (68288, 68295);
   (68297, 68324); (68331, 68335); (68352, 68405); (68416, 68437);
   (68440, 68466); (68472, 68497); (68521, 68527); (68608, 68680);
   (68736, 68786); (68800, 68850); (68858, 68899); (68912, 68921);
   (69216, 69246); (69248, 69289); (69296, 69297); (69376, 69415);
   (69424, 69445); (69457, 69460); (69488, 69505); (69552, 69579);
   (69600, 69622); (69635, 69687); (69714, 69743); (69745, 69746);
   (69749, 69749); (69763, 69807); (69840, 69864); (69872, 69881);
   (69891, 69926); (69942, 69951); (69956, 69956); (69959, 69959);
   (69968, 70002); (70006, 70006); (70019, 70066); (70081, 70084);
   (70096, 70106); (70108, 70108); (70113, 70132); (70144, 70161);
   (70163, 70187); (70272, 70278); (70280, 70280); (70282, 70285);
   (70287, 70301); (70303, 70312); (70320, 70366); (70384, 70393);
   (70405, 70412); (70415, 70416); (70419, 70440); (70442, 70448);
   (70450, 70451); (70453, 70457); (70461, 70461); (70480, 70480);
   (70493, 70497); (70656, 70708); (70727, 70730); (70736, 70745);
   (70751, 70753); (70784, 70831); (70852, 70853); (70855, 70855);
   (70864, 70873); (71040, 71086); (71128, 71131); (71168, 71215);
   (71236, 71236); (71248, 71257); (71296, 71338); (71352, 71352);
   (71360, 71369); (71424, 71450); (71472, 71483); (71488, 71494);
   (71680, 71723); (71840, 71922); (71935, 71942); (71945, 71945);
   (71948, 71955); (71957, 71958); (71960, 71983); (71999, 71999);
   (72001, 72001); (72016, 72025); (72096, 72103); (72106, 72144);
   (72161, 72161); (72163, 72163); (72192, 72192); (72203, 72242);
   (72250, 72250); (72272, 72272); (72284, 72329); (72349, 72349);
   (72368, 72440); (72704, 72712); (72714, 72750); (72768, 72768);
   (72784, 72812); (72818, 72847); (72960, 72966); (72968, 72969);
   (72971, 73008); (73030, 73030); (73040, 73049); (73056, 73061);
   (73063, 73064); (73066, 73097); (73112, 73112); (73120, 73129);
   (73440, 73458); (73648, 73648); (73664, 73684); (73728, 74649);
   (74752, 74862); (74880, 75075); (77712, 77808); (77824, 78894);
   (82944, 83526); (92160, 92728); (92736, 92766); (92768, 92777);
   (92784, 92862); (92864, 92873); (92880, 92909); (92928, 92975);
   (92992, 92995); (93008, 93017); (93019, 93025); (93027, 93047);
   (93053, 93071); (93760, 93846); (93952, 94026); (94032, 94032);
   (94099, 94111); (94176, 94177); (94179, 94179); (94208, 100343);
   (100352, 101589); (101632, 101640); (110576, 110579); (110581, 110587);
   (110589, 110590); (110592, 110882); (110928, 110930); (110948, 110951);
   (110960, 111355); (113664, 113770); (113776, 113788); (113792, 113800);
   (113808, 113817); (119520, 119539); (119648, 119672); (119808, 119892);
   (119894, 119964); (119966, 119967); (119970, 119970); (119973, 119974);
   (119977, 119980); (119982, 119993); (119995, 119995); (119997, 120003);
   (120005, 120069); (120071, 120074); (120077, 120084); (120086, 120092);
   (120094, 120121); (120123, 120126); (120128, 120132); (120134, 120134);
   (120138, 120144); (120146, 120485); (120488, 120512); (120514, 120538);
   (120540, 120570); (120572, 120596); (120598, 120628); (120630, 120654);
   (120656, 120686); (120688, 120712); (120714, 120744); (120746, 120770);
   (120772, 120779); (120782, 120831); (122624, 122654); (123136, 123180);
   (123191, 123197); (123200, 123209); (123214, 123214); (123536, 123565);
   (123584, 123627); (123632, 123641); (124896, 124902); (124904, 124907);
   (124909, 124910); (124912, 124926); (124928, 125124); (125127, 125135);
   (125184, 125251); (125259, 125259); (125264, 125273); (126065, 126123);
   (126125, 126127); (126129, 126132); (126209, 126253); (126255, 126269);
   (126464, 126467); (126469, 126495); (126497, 126498); (126500, 126500);
   (126503, 126503); (126505, 126514); (126516, 126519); (126521, 126521);
   (126523, 126523); (126530, 126530); (126535, 126535); (126537, 126537);
   (126539, 126539); (126541, 126543); (126545, 126546); (126548, 126548);
   (126551, 126551); (126553, 126553); (126555, 126555); (126557, 126557);
   (126559, 126559); (126561, 126562); (126564, 126564); (126567, 126570);
   (126572, 126578); (126580, 126583); (126585, 126588); (126590, 126590);
   (126592, 126601); (126603, 126619); (126625, 126627); (126629, 126633);
   (126635, 126651); (127232, 127244); (130032, 130041); (131072, 173791);
   (173824, 177976); (177984, 178205); (178208, 183969); (183984, 191456);
   (194560, 195101); (196608, 201546)]%N.

(** Code points for which [str.isspace] holds; used by [str.strip],
    [str.split] without argument and by [\s]. *)
Definition space_ranges : list (N * N) :=
  [(9, 13); (28, 32); (133, 133); (160, 160); (5760, 5760); (8192, 8202);
   (8232, 8233); (8239, 8239); (8287, 8287); (12288, 12288)]%N.

Definition is_decimal : codepoint -> bool := in_ranges decimal_ranges.
Definition is_alnum : codepoint -> bool := in_ranges alnum_ranges.
Definition is_space : codepoint -> bool := in_ranges space_ranges.

(** [\w]: alphanumeric or underscore. *)
Definition is_word (c : codepoint) : bool := is_alnum c || (c =? 95).

#[global] Arguments is_decimal : simpl never.
#[global] Arguments is_alnum : simpl never.
#[global] Arguments is_space : simpl never.
#[global] Arguments is_word : simpl never.

(** Source text is UTF-8; [str "..."] is the code point list of a literal. *)
Fixpoint bytes (s : string) : list N :=
  match s with
  | EmptyString => []
  | String a s' => N_of_ascii a :: bytes s'
  end.

Definition cont (b : N) : N := b mod 64.

Fixpoint utf8_decode (bs : list N) : pystr :=
  match bs with
  | [] => []
  | b0 :: t0 =>
      if b0 <? 128 then b0 :: utf8_decode t0
      else match t0 with
      | [] => [b0]
      | b1 :: t1 =>
          if b0 <? 224 then ((b0 mod 32) * 64 + cont b1) :: utf8_decode t1
          else match t1 with
          | [] => [b0]
          | b2 :: t2 =>
              if b0 <? 240
              then ((b0 mod 16) * 4096 + cont b1 * 64 + cont b2) :: utf8_decode t2
              else match t2 with
              | [] => [b0]
              | b3 :: t3 =>
                  ((b0 mod 8) * 262144 + cont b1 * 4096 + cont b2 * 64 + cont b3)
                    :: utf8_decode t3
              end
          end
      end
  end.

Definition str (s : string) : pystr := utf8_decode (bytes s).

(** The single code point of a one-character literal. *)
Definition chr (s : string) : codepoint := hd 0 (str s).

Definition LF : codepoint := 10.

(** Equality of strings, [a == b]. *)
Fixpoint str_eqb (a b : pystr) : bool :=
  match a, b with
  | [], [] => true
  | x :: a', y :: b' => (x =? y) && str_eqb a' b'
  | _, _ => false
  end.

(** [p] is a prefix of [s]: [s.startswith(p)]. *)
Fixpoint starts_with (p s : pystr) : bool :=
  match p, s with
  | [], _ => true
  | x :: p', y :: s' => (x =? y) && starts_with p' s'
  | _ :: _, [] => false
  end.

(** [needle in s]. *)
Fixpoint contains (needle s : pystr) : bool :=
  starts_with needle s ||
  match s with
  | [] => false
  | _ :: s' => contains needle s'
  end.

(** [s.count(needle)] for a non-empty needle: non-overlapping occurrences,
    scanned from the left. *)
Fixpoint count_from (fuel : nat) (needle s : pystr) : nat :=
  match fuel with
  | O => O
  | S f =>
      match s with
      | [] => O
      | _ :: s' =>
          if starts_with needle s
          then S (count_from f needle (skipn (length needle) s))
          else count_from f needle s'
      end
  end.

Definition count (needle s : pystr) : nat := count_from (length s) needle s.

(** [s.lstrip()], [s.rstrip()], [s.strip()]. *)
Fixpoint lstrip (s : pystr) : pystr :=
  match s with
  | c :: s' => if is_space c then lstrip s' else s
  | [] => []
  end.

Definition rstrip (s : pystr) : pystr := rev (lstrip (rev s)).

Definition strip (s : pystr) : pystr := rstrip (lstrip s).

(** [s.split(sep)] for a one-character separator. *)
Fixpoint split_on (sep : codepoint) (s : pystr) : list pystr :=
  match s with
  | [] => [[]]
  | c :: s' =>
      if c =? sep then [] :: split_on sep s'
      else match split_on sep s' with
           | l :: ls => (c :: l) :: ls
           | [] => [[c]]
           end
  end.

(** [s.split()]: maximal runs of non-whitespace. *)
Fixpoint words_aux (cur : pystr) (s : pystr) : list pystr :=
  match s with
  | [] => match cur with [] => [] | _ => [rev cur] end
  | c :: s' =>
      if is_space c
      then match cur with [] => words_aux [] s' | _ => rev cur :: words_aux [] s' end
      else words_aux (c :: cur) s'
  end.

Definition words (s : pystr) : list pystr := words_aux [] s.

End Unicode.

Import Unicode.

(** ** The [re] module: a backtracking matcher

    Leftmost match, alternatives tried in order, greedy repetition that
    gives characters back one iteration at a time: the search order of
    Python's engine.  The matcher is written with a continuation for what
    follows the pattern element at hand. *)

Module Re.

(** Character sets: [[...]] classes and the escapes [\d], [\w], [\s]. *)
Inductive cset : Type :=
| COneOf (l : pystr)
| CRange (lo hi : codepoint)
| CDigit
| CWord
| CSpace
| COr (a b : cset)
| CNot (a : cset).

Fixpoint cset_mem (cs : cset) (c : codepoint) : bool :=
  match cs with
  | COneOf l => existsb (N.eqb c) l
  | CRange lo hi => (lo <=? c) && (c <=? hi)
  | CDigit => is_decimal c
  | CWord => is_word c
  | CSpace => is_space c
  | COr a b => cset_mem a c || cset_mem b c
  | CNot a => negb (cset_mem a c)
  end.

Inductive regex : Type :=
| Lit (s : pystr)              (* literal text *)
| Cls (cs : cset)              (* one character of a set *)
| Seq (a b : regex)            (* a b *)
| Alt (a b : regex)            (* a|b *)
| Rep (lo : nat) (a : regex)   (* greedy a{lo,}: a* is Rep 0, a+ is Rep 1 *)
| Grp (n : nat) (a : regex)    (* capturing group number n *)
| Ref (n : nat)                (* back-reference \n *)
| Ahead (a : regex)            (* (?=a) *)
| NotAhead (a : regex)         (* (?!a) *)
| Bnd                          (* \b *)
| Eos.                         (* $ without MULTILINE *)

(** Matcher state: the character before the cursor, the text from the
    cursor on, the number of characters consumed since the match began and
    the groups captured so far. *)
Record mstate : Type := MState {
  prev : option codepoint;
  rest : pystr;
  used : nat;
  groups : list (nat * pystr)
}.

Definition start (p : option codepoint) (s : pystr) : mstate :=
  MState p s 0 [].

Definition step (st : mstate) (c : codepoint) (s' : pystr) : mstate :=
  MState (Some c) s' (S (used st)) (groups st).

Fixpoint eat (l : pystr) (st : mstate) : option mstate :=
  match l with
  | [] => Some st
  | c :: l' =>
      match rest st with
      | x :: xs => if x =? c then eat l' (step st x xs) else None
      | [] => None
      end
  end.

Fixpoint group (n : nat) (gs : list (nat * pystr)) : option pystr :=
  match gs with
  | [] => None
  | (m, s) :: gs' => if Nat.eqb m n then Some s else group n gs'
  end.

Definition set_group (n : nat) (s : pystr) (st : mstate) : mstate :=
  MState (prev st) (rest st) (used st) ((n, s) :: groups st).

Definition word_at (o : option codepoint) : bool :=
  match o with
  | Some c => is_word c
  | None => false
  end.

Definition at_boundary (st : mstate) : bool :=
  xorb (word_at (prev st)) (word_at (hd_error (rest st))).

(** [$]: at the end, or before a line feed that ends the string. *)
Definition at_end (st : mstate) : bool :=
  match rest st with
  | [] => true
  | [c] => c =? LF
  | _ => false
  end.

Definition orelse {A : Type} (a b : option A) : option A :=
  match a with
  | Some x => Some x
  | None => b
  end.

(** Greedy repetition of [body] at least [lo] times: one more turn is tried
    first; a turn must consume input.  [fuel] bounds the turns by the
    length of the text that is left. *)
Fixpoint rep_loop
  (body : (mstate -> option mstate) -> mstate -> option mstate)
  (lo : nat) (k : mstate -> option mstate)
  (fuel cnt : nat) (st : mstate) {struct fuel} : option mstate :=
  let leave := if Nat.leb lo cnt then k st else None in
  match fuel with
  | O => leave
  | S f =>
      orelse
        (body
           (fun st' =>
              if Nat.ltb (length (rest st')) (length (rest st))
              then rep_loop body lo k f (S cnt) st'
              else None)
           st)
        leave
  end.

Fixpoint rmatch (r : regex) (k : mstate -> option mstate) (st : mstate)
  {struct r} : option mstate :=
  match r with
  | Lit l =>
      match eat l st with
      | Some st' => k st'
      | None => None
      end
  | Cls cs =>
      match rest st with
      | x :: xs => if cset_mem cs x then k (step st x xs) else None
      | [] => None
      end
  | Seq a b => rmatch a (rmatch b k) st
  | Alt a b => orelse (rmatch a k st) (rmatch b k st)
  | Rep lo a => rep_loop (rmatch a) lo k (length (rest st)) 0 st
  | Grp n a =>
      rmatch a
        (fun st' =>
           k (set_group n (firstn (used st' - used st) (rest st)) st'))
        st
  | Ref n =>
      match group n (groups st) with
      | Some g =>
          match eat g st with
          | Some st' => k st'
          | None => None
          end
      | None => None
      end
  | Ahead a =>
      match rmatch a Some st with
      | Some _ => k st
      | None => None
      end
  | NotAhead a =>
      match rmatch a Some st with
      | Some _ => None
      | None => k st
      end
  | Bnd => if at_boundary st then k st else None
  | Eos => if at_end st then k st else None
  end.

(** A match object: the text before the match, the matched text, and the
    state at its end (which holds the groups and the text after it). *)
Record rmatch_obj : Type := Match {
  m_pre : pystr;
  m_text : pystr;
  m_end : mstate
}.

Definition m_group (n : nat) (m : rmatch_obj) : option pystr :=
  group n (groups (m_end m)).

(** [re.match]: at the start of the string only. *)
Definition re_match (r : regex) (s : pystr) : option rmatch_obj :=
  match rmatch r Some (start None s) with
  | Some st => Some (Match [] (firstn (used st) s) st)
  | None => None
  end.

(** The scan of [re.search]: the leftmost position from which the pattern
    matches; [p] is the character before [s]. *)
Fixpoint search_from (r : regex) (p : option codepoint) (s : pystr)
  : option rmatch_obj :=
  match rmatch r Some (start p s) with
  | Some st => Some (Match [] (firstn (used st) s) st)
  | None =>
      match s with
      | [] => None
      | c :: s' =>
          match search_from r (Some c) s' with
          | Some m => Some (Match (c :: m_pre m) (m_text m) (m_end m))
          | None => None
          end
      end
  end.

Definition re_search (r : regex) (s : pystr) : option rmatch_obj :=
  search_from r None s.

Definition found (o : option rmatch_obj) : bool :=
  match o with
  | Some _ => true
  | None => false
  end.

(** Replacement templates: text and group references [\n]. *)
Inductive ritem : Type :=
| RLit (s : pystr)
| RGrp (n : nat).

Definition template := list ritem.

Definition expand_item (m : rmatch_obj) (i : ritem) : pystr :=
  match i with
  | RLit s => s
  | RGrp n =>
      match m_group n m with
      | Some g => g
      | None => []
      end
  end.

Definition expand (t : template) (m : rmatch_obj) : pystr :=
  flat_map (expand_item m) t.

(** [re.sub]: every non-overlapping match from the left is replaced.  After
    an empty match the scan moves one character on (no pattern of this
    program matches the empty string). *)
Fixpoint sub_from (fuel : nat) (r : regex) (t : template)
  (p : option codepoint) (s : pystr) : pystr :=
  match fuel with
  | O => s
  | S f =>
      match search_from r p s with
      | None => s
      | Some m =>
          let st := m_end m in
          m_pre m ++ expand t m ++
          match used st with
          | O =>
              match rest st with
              | [] => []
              | c :: s' => c :: sub_from f r t (Some c) s'
              end
          | S _ => sub_from f r t (prev st) (rest st)
          end
      end
  end.

Definition re_sub (r : regex) (t : template) (s : pystr) : pystr :=
  sub_from (S (length s)) r t None s.

(** [re.split] with a pattern that has one capturing group: the pieces
    between the matches, each followed by the text of group 1. *)
Fixpoint split_from (fuel : nat) (r : regex) (p : option codepoint)
  (s : pystr) : list pystr :=
  match fuel with
  | O => [s]
  | S f =>
      match search_from r p s with
      | None => [s]
      | Some m =>
          let st := m_end m in
          let g := match m_group 1 m with Some g => g | None => [] end in
          match used st with
          | O =>
              match rest st with
              | [] => [m_pre m; g; []]
              | c :: s' =>
                  match split_from f r (Some c) s' with
                  | x :: xs => m_pre m :: g :: (c :: x) :: xs
                  | [] => [m_pre m; g; [c]]
                  end
              end
          | S _ => m_pre m :: g :: split_from f r (prev st) (rest st)
          end
      end
  end.

Definition re_split (r : regex) (s : pystr) : list pystr :=
  split_from (S (length s)) r None s.

(** [len(re.findall(r, s))]: the number of non-overlapping matches. *)
Fixpoint count_from (fuel : nat) (r : regex) (p : option codepoint)
  (s : pystr) : nat :=
  match fuel with
  | O => O
  | S f =>
      match search_from r p s with
      | None => O
      | Some m =>
          let st := m_end m in
          S match used st with
            | O =>
                match rest st with
                | [] => O
                | c :: s' => count_from f r (Some c) s'
                end
            | S _ => count_from f r (prev st) (rest st)
            end
      end
  end.

Definition re_count (r : regex) (s : pystr) : nat :=
  count_from (S (length s)) r None s.

End Re.

Import Re.

(** A pattern is written as the list of its elements. *)
Fixpoint cat (rs : list regex) : regex :=
  match rs with
  | [] => Lit []
  | [r] => r
  | r :: rs' => Seq r (cat rs')
  end.

Definition lit (s : string) : regex := Lit (str s).
Definition one_of (s : string) : cset := COneOf (str s).
Definition range (lo hi : string) : cset := CRange (chr lo) (chr hi).
Definition plain (s : string) : template := [RLit (str s)].

(** ** True division: [ZeroDivisionError] is [None] *)

Module Arith.

(** [a / b] on integers. *)
Definition py_div (a b : Z) : option Q :=
  match b with
  | Z0 => None
  | Zpos p => Some (a # p)
  | Zneg p => Some (- a # p)
  end.

(** [x / n] with a float numerator and an integer denominator. *)
Definition py_div_q (x : Q) (n : Z) : option Q :=
  match n with
  | Z0 => None
  | _ => Some (x / inject_Z n)%Q
  end.

End Arith.

Import Arith.

(** ** [final_system.py]: the rule pipeline and the segmenter *)

Module FinalSystem.

(** *** [LightweightCorrector.load_patterns] *)

Definition tech_terms : list (regex * pystr) :=
  [ (cat [Bnd; lit "ベルト"; Bnd], str "ベルトン");
    (cat [Bnd; lit "ベル ト"; Bnd], str "ベルトン");
    (cat [Bnd; lit "ジーピーティー"; Bnd], str "GPT");
    (cat [Bnd; lit "ラーム"; Bnd], str "Llama");
    (cat [Bnd; lit "エルエム"; Bnd], str "LLM");
    (cat [Bnd; lit "松尾研"; Bnd; NotAhead (lit "究室")], str "松尾研究室");
    (lit "とも配も", str "ともかく");
    (lit "編集BERT", str "BERT");
    (lit "あの後単語", str "後ほど") ].

Definition space_or_end : regex := Ahead (Alt (Cls CSpace) Eos).

Definition ending_fixes : list (regex * pystr) :=
  [ (cat [lit "申しす"; space_or_end], str "申します");
    (cat [lit "ございす"; space_or_end], str "ございます");
    (cat [lit "思いす"; space_or_end], str "思います");
    (lit "りがとうございす", str "ありがとうございます") ].

Definition naturalness_rules : list (regex * template) :=
  [ (cat [lit "だったのかな"; Cls (one_of "、。")], plain "でした。");
    (lit "あるのかなと思", plain "あると思");
    (lit "かなというふう", plain "かと思");
    (lit "っていう", plain "という");
    (lit "だったりとか", plain "や") ].

Definition spaces : regex := Rep 0 (Cls CSpace).

Definition filler_patterns : list (regex * template) :=
  [ (cat [spaces; Rep 1 (Cls (one_of "えあ")); Rep 0 (lit "ー"); spaces],
     plain " ");
    (cat [spaces; lit "あの"; Rep 0 (lit "ー"); spaces], plain " ");
    (cat [lit "なんか"; Rep 1 (Cls CSpace)], plain "") ].

(** [[あ-んA-Za-z]] *)
Definition kana_or_letter : cset :=
  COr (range "あ" "ん") (COr (range "A" "Z") (range "a" "z")).

Definition punctuation_rules : list (regex * template) :=
  [ (cat [lit "申します"; Grp 1 (Cls kana_or_letter)],
     [RLit (str "申します。"); RGrp 1]);
    (cat [lit "ございます"; Grp 1 (Cls kana_or_letter)],
     [RLit (str "ございます。"); RGrp 1]);
    (cat [lit "思います"; Grp 1 (Cls kana_or_letter)],
     [RLit (str "思います。"); RGrp 1]) ].

Definition repetition_patterns : list (regex * template) :=
  [ (cat [Bnd; Grp 1 (Rep 1 (Cls CWord)); lit "になる"; Ref 1; Bnd],
     [RGrp 1]);
    (cat [Bnd; Grp 1 (Rep 1 (Cls CWord)); Rep 1 (Cls CSpace); Ref 1;
          Ahead (Cls CSpace)],
     [RGrp 1]) ].

(** *** [LightweightCorrector.correct_text] *)

(** One turn of a stage's loop:
    [if re.search(pattern, corrected): corrected = re.sub(...); log.append(..)] *)
Definition apply_rule (entry : pystr) (pattern : regex) (replacement : template)
  (acc : pystr * list pystr) : pystr * list pystr :=
  let (corrected, corrections_log) := acc in
  if found (re_search pattern corrected)
  then (re_sub pattern replacement corrected, corrections_log ++ [entry])
  else acc.

(** Stages 1 and 2 log the replacement after the stage's name. *)
Definition named_stage (name : pystr) (rules : list (regex * pystr))
  (acc : pystr * list pystr) : pystr * list pystr :=
  fold_left
    (fun acc rule => apply_rule (name ++ snd rule) (fst rule) [RLit (snd rule)] acc)
    rules acc.

(** Stages 3 to 6 log a fixed tag. *)
Definition tagged_stage (tag : pystr) (rules : list (regex * template))
  (acc : pystr * list pystr) : pystr * list pystr :=
  fold_left (fun acc rule => apply_rule tag (fst rule) (snd rule) acc) rules acc.

Definition TECH : pystr := str "専門用語: ".
Definition ENDING : pystr := str "語尾修正: ".
Definition REPETITION : pystr := str "繰り返し除去".
Definition FILLER : pystr := str "フィラー除去".
Definition NATURAL : pystr := str "自然化".
Definition PUNCT : pystr := str "句読点追加".

Definition cleanup (corrected : pystr) : pystr :=
  let corrected := re_sub (Rep 2 (Cls CSpace)) (plain " ") corrected in
  let corrected :=
    re_sub (cat [spaces; Grp 1 (Cls (one_of "。、！？"))]) [RGrp 1] corrected in
  strip corrected.

Definition rule_stages (text : pystr) : pystr * list pystr :=
  let acc := (text, []) in
  let acc := named_stage TECH tech_terms acc in
  let acc := named_stage ENDING ending_fixes acc in
  let acc := tagged_stage REPETITION repetition_patterns acc in
  let acc := tagged_stage FILLER filler_patterns acc in
  let acc := tagged_stage NATURAL naturalness_rules acc in
  tagged_stage PUNCT punctuation_rules acc.

(** [quality = min(1.0, len(corrections_log) / 5 + 0.3)] *)
Definition simple_quality (corrections_log : list pystr) : Q :=
  Qmin 1 (inject_Z (Z.of_nat (length corrections_log)) / 5 + (3 # 10))%Q.

Definition correct_text (text : pystr) : pystr * list pystr * Q :=
  let (corrected, corrections_log) := rule_stages text in
  let corrected := cleanup corrected in
  (corrected, corrections_log, simple_quality corrections_log).

(** *** [LightweightCorrector.process_segments] *)

Record segment : Type := Segment {
  seg_id : nat;
  start_time : pystr;
  end_time : pystr;
  original : pystr;
  corrected : pystr;
  corrections : list pystr;
  quality : Q
}.

Definition digits : regex := Rep 1 (Cls CDigit).

(** [\d+:\d+:\d+] *)
Definition clock : regex := cat [digits; lit ":"; digits; lit ":"; digits].

(** [(\[\d+:\d+:\d+ - \d+:\d+:\d+\])], the pattern of [re.split]. *)
Definition HEADER : regex :=
  Grp 1 (cat [lit "["; clock; lit " - "; clock; lit "]"]).

(** [\[(\d+:\d+:\d+) - (\d+:\d+:\d+)\]], the pattern that reads the times. *)
Definition TIMES : regex :=
  cat [lit "["; Grp 1 clock; lit " - "; Grp 2 clock; lit "]"].

Definition SENTINEL : pystr := str "00:00:00".

Definition read_times (timestamp : pystr) : pystr * pystr :=
  match re_search TIMES timestamp with
  | Some ts_match =>
      (match m_group 1 ts_match with Some g => g | None => [] end,
       match m_group 2 ts_match with Some g => g | None => [] end)
  | None => (SENTINEL, SENTINEL)
  end.

(** [range(lo, hi, 2)] *)
Fixpoint range2 (fuel lo hi : nat) : list nat :=
  match fuel with
  | O => []
  | S f => if Nat.ltb lo hi then lo :: range2 f (lo + 2) hi else []
  end.

(** The body of the loop over [i]; [results] is the list built so far. *)
Definition segment_step (segments : list pystr) (results : list segment)
  (i : nat) : list segment :=
  if Nat.ltb (i + 1) (length segments) then
    let timestamp := nth i segments [] in
    let content := strip (nth (i + 1) segments []) in
    match content with
    | [] => results
    | _ :: _ =>
        let (start, stop) := read_times timestamp in
        let '(fixed, log, q) := correct_text content in
        results ++ [Segment (length results + 1) start stop content fixed log q]
    end
  else results.

Definition process_segments (text : pystr) : list segment :=
  let segments := re_split HEADER text in
  fold_left (segment_step segments)
            (range2 (length segments) 1 (length segments)) [].

(** *** The output writer of [main]

    [f.write(f"[{start_time} - {end_time}]\n"); f.write(f"{corrected}\n\n")] *)
Definition write_segment (start stop text : pystr) : pystr :=
  str "[" ++ start ++ str " - " ++ stop ++ str "]" ++ [LF] ++ text ++ [LF; LF].

Definition write_output (results : list segment) : pystr :=
  flat_map (fun r => write_segment (start_time r) (end_time r) (corrected r))
           results.

(** The average that [main] prints after writing the file:
    [sum(r['quality'] for r in results)/len(results)]. *)
Definition report_average (results : list segment) : option Q :=
  py_div_q (fold_left (fun acc r => (acc + quality r)%Q) results 0%Q)
           (Z.of_nat (length results)).

End FinalSystem.

Import FinalSystem.

(** ** [nova_system.py]: rule stage, escalation gate and the LLM boundary *)

Module NovaSystem.

(** What [bedrock_client.invoke_model] and the decoding of its reply can
    produce: an exception (the call or [json.loads] raised), or a decoded
    body with its token usage ([0] when absent) and the [content] list of
    [output.message] ([None] when [output] or [message] is absent; an
    element is the value under ['text'], [None] when that key is absent). *)
Inductive reply : Type :=
| Raises
| Body (input_tokens output_tokens : nat) (content : option (list (option pystr))).

Record corrector : Type := Corrector {
  bedrock_client : option (pystr -> reply);
  total_input_tokens : nat;
  total_output_tokens : nat;
  total_cost : Q
}.

(** [NovaCorrector.needs_llm_correction] *)
Definition complex_patterns : list regex :=
  [ cat [Rep 3 (Cls (range "あ" "ん")); lit "も"];
    lit "帰漏らし";
    lit "エポック";
    lit "簡易回";
    cat [lit "バット"; Cls (CNot (one_of "ー"))];
    lit "お腹切り";
    lit "円周部分";
    lit "ベルトンさん";
    lit "松尾岩澤研";
    lit "スレッド1";
    lit "Googleコラボ" ].

Definition needs_llm_correction (text : pystr) : bool :=
  existsb (fun pattern => found (re_search pattern text)) complex_patterns.

(** [NovaCorrector.create_correction_prompt] *)
Definition create_correction_prompt (text : pystr) : pystr :=
  str "以下は大規模言語モデル（LLM）講座の書き起こしテキストです。Speech-to-Textによる誤認識を修正して、自然で正確な日本語に直してください。

【修正ルール】
1. 専門用語・人名・組織名を正確に修正
   - 「ベルトンさん」→「ベルトンさん」（人名として適切に）
   - 「松尾岩澤研」→「松尾・岩澤研」（正式組織名）
   - 「Googleコラボ」→「Google Colab」
   - 「スレッド1」→「ワンスレッド1」

2. 音韻類似による誤認識修正
   - 「帰漏らし」→「聞き漏らし」
   - 「簡易回」→「範囲外」
   - 「バット」→「バッド」（Bad）
   - 「円周部分」→「演習部分」

3. 文脈依存の語句修正
   - 「とも配も」→「ともかく」または「この後」（文脈に応じて）
   - 「エポック」→適切な人名・用語に
   - 「お腹切り取りたい」→「可能な限り取りたい」

4. 不自然な表現の自然化
   - 話し言葉を適切な書き言葉に
   - 繰り返しや冗長表現の削除

【重要】
- 元の意味を保持すること
- 講義の内容・文脈に適した修正を行うこと
- 過度な修正は避け、必要最小限の変更に留めること

【修正対象テキスト】
" ++ text ++ str "

【修正後】（修正されたテキストのみを出力してください）:".

(** [NovaCorrector.call_nova_micro]: the new accounting and the text, or
    [None].  The [except] clause turns every exception into [None]. *)
Definition call_nova_micro (self : corrector) (prompt : pystr)
  : corrector * option pystr :=
  match bedrock_client self with
  | None => (self, None)
  | Some invoke_model =>
      match invoke_model prompt with
      | Raises => (self, None)
      | Body input_tokens output_tokens content =>
          let input_cost := (inject_Z (Z.of_nat input_tokens) * (35 # 1000000) / 1000)%Q in
          let output_cost := (inject_Z (Z.of_nat output_tokens) * (14 # 100000) / 1000)%Q in
          let call_cost := (input_cost + output_cost)%Q in
          let self' :=
            Corrector (bedrock_client self)
                      (total_input_tokens self + input_tokens)
                      (total_output_tokens self + output_tokens)
                      (total_cost self + call_cost)%Q in
          match content with
          | Some (first :: _) =>
              (self', Some (strip (match first with Some t => t | None => [] end)))
          | _ => (self', None)
          end
      end
  end.

Definition LLM_CONTEXT : pystr := str "LLM文脈修正".

(** [NovaCorrector.enhanced_correct_text] *)
Definition enhanced_correct_text (self : corrector) (text : pystr)
  : corrector * (pystr * list pystr * Q) :=
  let '(rule_corrected, rule_corrections, rule_quality) := correct_text text in
  let corrections_log := [] ++ rule_corrections in
  if needs_llm_correction rule_corrected then
    let prompt := create_correction_prompt rule_corrected in
    let (self', llm_result) := call_nova_micro self prompt in
    match llm_result with
    | Some (c :: r) =>
        if negb (str_eqb (c :: r) rule_corrected)
        then (self', (c :: r, corrections_log ++ [LLM_CONTEXT],
                      Qmin 1 (rule_quality + (3 # 10))%Q))
        else (self', (rule_corrected, corrections_log, rule_quality))
    | _ => (self', (rule_corrected, corrections_log, rule_quality))
    end
  else (self, (rule_corrected, corrections_log, rule_quality)).

Record nova_segment : Type := NovaSegment {
  n_id : nat;
  n_start_time : pystr;
  n_end_time : pystr;
  n_original : pystr;
  n_corrected : pystr;
  n_corrections : list pystr;
  n_quality : Q;
  llm_used : bool
}.

(** The body of the loop of [process_segments_enhanced]. *)
Definition enhanced_step (segments : list pystr)
  (acc : corrector * list nova_segment) (i : nat)
  : corrector * list nova_segment :=
  let (self, results) := acc in
  if Nat.ltb (i + 1) (length segments) then
    let timestamp := nth i segments [] in
    let content := strip (nth (i + 1) segments []) in
    match content with
    | [] => acc
    | _ :: _ =>
        let (start, stop) := read_times timestamp in
        let '(self', (fixed, log, q)) := enhanced_correct_text self content in
        (self',
         results ++
           [NovaSegment (length results + 1) start stop content fixed log q
                        (existsb (contains (str "LLM")) log)])
    end
  else acc.

(** [NovaCorrector.process_segments_enhanced] *)
Definition process_segments_enhanced (self : corrector) (text : pystr)
  : corrector * list nova_segment :=
  let segments := re_split HEADER text in
  fold_left (enhanced_step segments)
            (range2 (length segments) 1 (length segments)) (self, []).

(** A corrector as [__init__] leaves it; [client] is [None] when the client
    could not be created, or when batch processing runs with [--no-llm]. *)
Definition new_corrector (client : option (pystr -> reply)) : corrector :=
  Corrector client 0 0 0%Q.

End NovaSystem.

Import NovaSystem.

(** ** [improved_evaluator.py]: the auditor's extractor and scorer *)

Module ImprovedEvaluator.

Record raw_segment : Type := RawSegment {
  timestamp : pystr;
  content : pystr;
  line_number : nat
}.

(** [\[\d+:\d+:\d+ - \d+:\d+:\d+\]], matched at the start of a line. *)
Definition HEADER_LINE : regex :=
  cat [lit "["; clock; lit " - "; clock; lit "]"].

Definition non_empty {A : Type} (s : list A) : bool :=
  match s with
  | [] => false
  | _ :: _ => true
  end.

(** The body of the loop over the lines; the state is the list built so
    far and the segment being filled. *)
Definition extract_step (st : list raw_segment * raw_segment)
  (numbered : nat * pystr) : list raw_segment * raw_segment :=
  let (segments, current_segment) := st in
  let (line_num, line) := numbered in
  let line := strip line in
  if found (re_match HEADER_LINE line) then
    (if non_empty (content current_segment)
     then segments ++ [current_segment] else segments,
     RawSegment line [] line_num)
  else if non_empty line then
    (segments,
     RawSegment (timestamp current_segment)
                (content current_segment ++ line ++ str " ")
                (line_number current_segment))
  else st.

Definition enumerate {A : Type} (l : list A) : list (nat * A) :=
  combine (seq 0 (length l)) l.

(** [extract_segments_improved] *)
Definition extract_segments_improved (text : pystr) : list raw_segment :=
  let lines := split_on LF text in
  let (segments, current_segment) :=
    fold_left extract_step (enumerate lines) ([], RawSegment [] [] 0) in
  if non_empty (content current_segment)
  then segments ++ [current_segment] else segments.

(** [detect_corrections_improved] *)
Definition REPEATED : regex :=
  cat [Grp 1 (Rep 1 (Cls CWord)); lit "になる"; Ref 1].

Definition tech_replacements : list (pystr * pystr) :=
  [ (str "ベルト", str "BERT"); (str "ジーピーティー", str "GPT");
    (str "ラーム", str "Llama"); (str "エルエム", str "LLM") ].

Definition fillers : list pystr :=
  [ str "えー"; str "あのー"; str "なんか"; str "その"; str "ちょっと" ].

Definition sum_nat (l : list nat) : nat := fold_left Nat.add l 0%nat.

Definition when (b : bool) (tag : string) : list pystr :=
  if b then [str tag] else [].

Definition detect_corrections_improved (original corrected : pystr)
  : list pystr :=
  when (found (re_search REPEATED original)
        && negb (found (re_search REPEATED corrected)))
       "repetition_removal"
  ++ flat_map
       (fun r => when (contains (fst r) original && contains (snd r) corrected)
                      "technical_terms")
       tech_replacements
  ++ when (Nat.ltb (sum_nat (map (fun f => count f corrected) fillers))
                   (sum_nat (map (fun f => count f original) fillers)))
          "filler_removal"
  ++ when (Nat.ltb (re_count (Cls (one_of "。、")) original)
                   (re_count (Cls (one_of "。、")) corrected))
          "punctuation_improvement"
  ++ when ((contains (str "だったのかな") original && contains (str "でした") corrected)
           || (contains (str "っていう") original && contains (str "という") corrected))
          "naturalness_improvement"
  ++ when ((contains (str "申しす") original && contains (str "申します") corrected)
           || (contains (str "ございす") original && contains (str "ございます") corrected))
          "grammar_fixes".

(** [calculate_realistic_quality_score] *)
Definition correction_weights : list (pystr * Q) :=
  [ (str "technical_terms", 2 # 10);
    (str "repetition_removal", 15 # 100);
    (str "grammar_fixes", 15 # 100);
    (str "punctuation_improvement", 1 # 10);
    (str "naturalness_improvement", 1 # 10);
    (str "filler_removal", 5 # 100) ]%Q.

(** [d.get(key, default)] *)
Fixpoint dict_get {V : Type} (d : list (pystr * V)) (key : pystr) (default : V) : V :=
  match d with
  | [] => default
  | (k, v) :: d' => if str_eqb k key then v else dict_get d' key default
  end.

Definition improvements : list (regex * pystr) :=
  [ (lit "Day2になるDay2", str "Day2");
    (lit "ますタイトル", str "ます。タイトル");
    (lit "かなと思っている", str "かと思") ].

(** [detect_obvious_improvements] *)
Definition detect_obvious_improvements (original corrected : pystr) : bool :=
  existsb
    (fun i => found (re_search (fst i) original) && contains (snd i) corrected)
    improvements.

Definition important_words : list pystr :=
  [ str "講師"; str "講座"; str "皆さん"; str "研究室" ].

(** [detect_deterioration] *)
Definition detect_deterioration (original corrected : pystr) : bool :=
  if contains (str "ありがとうございます") original
     && contains (str "りがとうございます") corrected
  then true
  else existsb
         (fun word => contains word original && negb (contains word corrected))
         important_words.

(** [len(corrected) / max(len(original), 1)] *)
Definition length_ratio (original corrected : pystr) : Q :=
  Z.of_nat (length corrected) # Pos.of_nat (Nat.max (length original) 1).

Definition clamp01 (score : Q) : Q := Qmin (Qmax score 0) 1.

Definition calculate_realistic_quality_score
  (original corrected : pystr) (corrections : list pystr) : Q :=
  let score := (5 # 10)%Q in
  let score :=
    fold_left (fun score correction =>
                 (score + dict_get correction_weights correction (2 # 100))%Q)
              corrections score in
  let length_ratio := length_ratio original corrected in
  let score :=
    if Qle_bool (7 # 10) length_ratio && Qle_bool length_ratio (13 # 10)
    then (score + (1 # 10))%Q
    else if negb (Qle_bool (5 # 10) length_ratio)
    then (score - (2 # 10))%Q
    else score in
  let score :=
    if detect_obvious_improvements original corrected
    then (score + (15 # 100))%Q else score in
  let score :=
    if detect_deterioration original corrected
    then (score - (3 # 10))%Q else score in
  clamp01 score.

Record overall_metrics : Type := OverallMetrics {
  character_reduction : Z;
  character_reduction_ratio : Q;
  sentence_count_change : Z;
  punctuation_density_improvement : Q
}.

Definition len (s : pystr) : Z := Z.of_nat (length s).
Definition count_of (cs : string) (s : pystr) : Z :=
  Z.of_nat (re_count (Cls (one_of cs)) s).
Definition word_count (s : pystr) : Z := Z.of_nat (length (words s)).

(** [calculate_overall_metrics]; the entries of the dictionary are
    evaluated in the order they are written, and the operand of a
    conditional expression only when its condition holds. *)
Definition calculate_overall_metrics (original corrected : pystr)
  : option overall_metrics :=
  let reduction := (len original - len corrected)%Z in
  match py_div (len original - len corrected) (len original) with
  | None => None
  | Some ratio =>
      let sentences := (count_of "。！？" corrected - count_of "。！？" original)%Z in
      if non_empty (words corrected) && non_empty (words original) then
        match py_div (count_of "。、" corrected) (word_count corrected),
              py_div (count_of "。、" original) (word_count original) with
        | Some dc, Some do => Some (OverallMetrics reduction ratio sentences (dc - do)%Q)
        | _, _ => None
        end
      else Some (OverallMetrics reduction ratio sentences 0%Q)
  end.

End ImprovedEvaluator.

Import ImprovedEvaluator.

(** ** [batch_processor.py]: the persisted run statistics *)

Module BatchProcessor.

Record batch_stats : Type := BatchStats {
  total_segments : nat;
  llm_usage : nat;
  average_quality : Q;
  high_quality_count : nat;
  total_cost_jpy : Q;
  input_tokens : nat;
  output_tokens : nat
}.

Definition sum_quality (rs : list nova_segment) : Q :=
  fold_left (fun acc r => (acc + n_quality r)%Q) rs 0%Q.

Definition count_if {A : Type} (f : A -> bool) (l : list A) : nat :=
  length (filter f l).

(** [BatchProcessor.save_batch_stats]: the [stats] dictionary (without the
    wall-clock stamp).  The average is guarded by [if all_results else 0]. *)
Definition save_batch_stats (self : corrector) (all_results : list nova_segment)
  : option batch_stats :=
  match
    (if non_empty all_results
     then py_div_q (sum_quality all_results) (Z.of_nat (length all_results))
     else Some 0%Q)
  with
  | None => None
  | Some average =>
      Some (BatchStats
              (length all_results)
              (count_if llm_used all_results)
              average
              (count_if (fun r => negb (Qle_bool (n_quality r) (7 # 10))) all_results)
              (total_cost self * 150)%Q
              (total_input_tokens self)
              (total_output_tokens self))
  end.

End BatchProcessor.

Import BatchProcessor.

(** ** A direct reading of timestamp headers

    The patterns [HEADER], [TIMES] and [HEADER_LINE] are built from literal
    text, runs of digits and groups only.  On such patterns the matcher
    never has a choice to revise, and a left-to-right scanner reads the
    same match; the segmenter is reasoned about through the scanner. *)

Module Scan.

(** The longest run of decimal digits at the start of [s]. *)
Fixpoint span_digits (s : pystr) : pystr * pystr :=
  match s with
  | c :: s' =>
      if is_decimal c
      then let (d, r) := span_digits s' in (c :: d, r)
      else ([], s)
  | [] => ([], [])
  end.

(** The scanner: matched text, groups (latest first), text that is left. *)
Fixpoint scan (r : regex) (s : pystr)
  : option (pystr * list (nat * pystr) * pystr) :=
  match r with
  | Lit l => if starts_with l s then Some (l, [], skipn (length l) s) else None
  | Rep 1 (Cls CDigit) =>
      match span_digits s with
      | ([], _) => None
      | (d, r) => Some (d, [], r)
      end
  | Seq a b =>
      match scan a s with
      | Some (t1, g1, r1) =>
          match scan b r1 with
          | Some (t2, g2, r2) => Some (t1 ++ t2, g2 ++ g1, r2)
          | None => None
          end
      | None => None
      end
  | Grp n a =>
      match scan a s with
      | Some (t, g, r) => Some (t, (n, t) :: g, r)
      | None => None
      end
  | _ => None
  end.

(** The pattern may end with a run of digits. *)
Fixpoint open_end (r : regex) : bool :=
  match r with
  | Rep _ _ => true
  | Seq _ b => open_end b
  | Grp _ a => open_end a
  | _ => false
  end.

(** The pattern starts with a literal character that is not a digit. *)
Fixpoint closed_start (r : regex) : bool :=
  match r with
  | Lit (c :: _) => negb (is_decimal c)
  | Seq a _ => closed_start a
  | Grp _ a => closed_start a
  | _ => false
  end.

(** The patterns the scanner reads as the matcher does: a run of digits is
    always followed by a literal character that is not a digit. *)
Fixpoint timestamp_like (r : regex) : bool :=
  match r with
  | Lit l => non_empty l
  | Rep 1 (Cls CDigit) => true
  | Seq a b =>
      timestamp_like a && timestamp_like b
      && (negb (open_end a) || closed_start b)
  | Grp _ a => timestamp_like a
  | _ => false
  end.

Definition last_of (t : pystr) (p : option codepoint) : option codepoint :=
  fold_left (fun _ c => Some c) t p.

(** The matcher state after reading [t] and capturing [g]. *)
Definition moved (t : pystr) (g : list (nat * pystr)) (st : mstate) : mstate :=
  MState (last_of t (prev st)) (skipn (length t) (rest st))
         (used st + length t) (g ++ groups st).

Definition digit_led (s : pystr) : bool :=
  match s with
  | c :: _ => is_decimal c
  | [] => false
  end.

(** A continuation that fails whenever a digit comes next. *)
Definition digit_blind (k : mstate -> option mstate) : Prop :=
  forall st, digit_led (rest st) = true -> k st = None.

(** [[start - end]] *)
Definition header_text (a b : pystr) : pystr :=
  str "[" ++ a ++ str " - " ++ b ++ str "]".

(** A header at the start of [s]: its two times and the text after it. *)
Definition parse_header (s : pystr) : option (pystr * pystr * pystr) :=
  match scan TIMES s with
  | Some (_, [(_, b); (_, a)], r) => Some (a, b, r)
  | _ => None
  end.

(** The first header of [s]: the text before it, its times, the text after. *)
Fixpoint find_header (s : pystr) : option (pystr * pystr * pystr * pystr) :=
  match parse_header s with
  | Some (a, b, r) => Some ([], a, b, r)
  | None =>
      match s with
      | [] => None
      | c :: s' =>
          match find_header s' with
          | Some (pre, a, b, r) => Some (c :: pre, a, b, r)
          | None => None
          end
      end
  end.

(** The units after a header with times [a], [b]: its text runs to the
    next header or to the end. *)
Fixpoint units_after (fuel : nat) (a b s : pystr) : list (pystr * pystr * pystr) :=
  match fuel with
  | O => [(a, b, s)]
  | S f =>
      match find_header s with
      | None => [(a, b, s)]
      | Some (body, a', b', r) => (a, b, body) :: units_after f a' b' r
      end
  end.

(** The headers of a text from left to right, each with the text that
    follows it; the text before the first header belongs to no unit. *)
Definition header_units (text : pystr) : list (pystr * pystr * pystr) :=
  match find_header text with
  | None => []
  | Some (_, a, b, r) => units_after (length text) a b r
  end.

Definition preamble (text : pystr) : pystr :=
  match find_header text with
  | None => text
  | Some (pre, _, _, _) => pre
  end.

Definition unit_text (u : pystr * pystr * pystr) : pystr :=
  let '(a, b, body) := u in header_text a b ++ body.

(** The list [re.split] returns for these units, after its first element. *)
Definition flat_units (us : list (pystr * pystr * pystr)) : list pystr :=
  flat_map (fun u => let '(a, b, body) := u in [header_text a b; body]) us.

(** A segment of the result as [(start_time, end_time, original)]. *)
Definition key (r : segment) : pystr * pystr * pystr :=
  (start_time r, end_time r, original r).

Definition space_led (s : pystr) : bool :=
  match s with
  | c :: _ => is_space c
  | [] => false
  end.

(** No whitespace at either end. *)
Definition trim_ok (t : pystr) : Prop :=
  space_led t = false /\ space_led (rev t) = false.

(** A segment as [(start_time, end_time, text)]. *)
Definition trimmed (u : pystr * pystr * pystr) : pystr * pystr * pystr :=
  let '(a, b, body) := u in (a, b, strip body).

Definition has_text (u : pystr * pystr * pystr) : bool :=
  non_empty (snd u).

(** Groups do not change what is read. *)
Fixpoint erase (r : regex) : regex :=
  match r with
  | Grp _ a => erase a
  | Seq a b => Seq (erase a) (erase b)
  | _ => r
  end.

(** What [re.split] on headers returns, read with the scanner: the text
    before the first header, then every header followed by its text. *)
Fixpoint pieces (fuel : nat) (s : pystr) : list pystr :=
  match fuel with
  | O => [s]
  | S f =>
      match find_header s with
      | None => [s]
      | Some (pre, a, b, r) => pre :: header_text a b :: pieces f r
      end
  end.

(** The matcher state at the end of a header. *)
Definition header_end (a b r : pystr) : mstate :=
  MState (Some (chr "]")) r (length (header_text a b))
         [(1%nat, header_text a b)].

(** What the segmenter does with one unit. *)
Definition add_unit (results : list segment) (u : pystr * pystr * pystr)
  : list segment :=
  let '(a, b, body) := u in
  match strip body with
  | [] => results
  | c :: content =>
      let '(fixed, log, q) := correct_text (c :: content) in
      results ++ [Segment (length results + 1) a b (c :: content) fixed log q]
  end.

(** A run of digits, and a time [h:m:s]. *)
Definition digit_run (d : pystr) : Prop :=
  d <> [] /\ forallb is_decimal d = true.

Definition is_clock (a : pystr) : Prop :=
  exists h m sec,
    digit_run h /\ digit_run m /\ digit_run sec /\
    a = h ++ str ":" ++ m ++ str ":" ++ sec.

Definition clocked (u : pystr * pystr * pystr) : Prop :=
  let '(a, b, _) := u in is_clock a /\ is_clock b.

(** A corrected text that survives writing and segmenting again: not
    empty and without a timestamp header. *)
Definition header_free (c : pystr) : bool := negb (found (re_search HEADER c)).

Definition rereadable (r : segment) : bool :=
  non_empty (corrected r) && header_free (corrected r).

(** A corrected text on one line. *)
Definition one_line (c : pystr) : bool := negb (existsb (N.eqb LF) c).

(** What the segmenter guarantees of its own segments. *)
Definition well_formed (r : segment) : Prop :=
  is_clock (start_time r) /\ is_clock (end_time r) /\ trim_ok (corrected r).

(** The unit a written segment is read back as. *)
Definition written_unit (r : segment) : pystr * pystr * pystr :=
  (start_time r, end_time r, LF :: corrected r ++ [LF; LF]).

(** [Some (p, a, b, r)] becomes [Some (pre ++ p, a, b, r)]. *)
Definition shift (pre : pystr) (o : option (pystr * pystr * pystr * pystr))
  : option (pystr * pystr * pystr * pystr) :=
  match o with
  | Some (p, a, b, r) => Some (pre ++ p, a, b, r)
  | None => None
  end.

(** The segments the extractor has gathered, with the one being filled
    when it has text: what [extract_segments_improved] returns at the end. *)
Definition gathered (st : list raw_segment * raw_segment) : list raw_segment :=
  fst st ++ (if non_empty (content (snd st)) then [snd st] else []).

Definition raw_unit (e : raw_segment) : pystr * pystr :=
  (timestamp e, strip (content e)).

(** The lines a segment is written as, and all lines of the output. *)
Definition written_lines (r : segment) : list pystr :=
  [header_text (start_time r) (end_time r); corrected r; []].

Definition output_lines (rs : list segment) : list pystr :=
  flat_map written_lines rs ++ [[]].

Definition shown (r : segment) : pystr * pystr :=
  (header_text (start_time r) (end_time r), corrected r).

(** A character that can occur in a header. *)
Definition header_char (c : codepoint) : bool :=
  is_decimal c || existsb (N.eqb c) (str "[]: -").

End Scan.

Import Scan.

(** ** The statements the code is compared with

    Each definition follows the words of the specification, not the code. *)

Module Stated.

(** The category of a log entry: the text before the colon, if any
    ("語尾修正: 申します" has category "語尾修正"). *)
Fixpoint category_of (entry : pystr) : pystr :=
  match entry with
  | [] => []
  | c :: entry' => if c =? chr ":" then [] else c :: category_of entry'
  end.

Definition distinct (l : list pystr) : list pystr :=
  nodup (list_eq_dec N.eq_dec) l.

(** "0.3 plus 0.2 per distinct correction category detected, capped at 1.0" *)
Definition simple_score (corrections_log : list pystr) : Q :=
  Qmin 1 ((3 # 10)
          + (2 # 10) * inject_Z (Z.of_nat (length (distinct (map category_of corrections_log)))))%Q.

(** "per detected correction category the weight {...}": an entry adds the
    weight listed for it; the list has six categories. *)
Definition listed_weight (correction : pystr) : Q :=
  dict_get correction_weights correction 0%Q.

Definition sum_q (l : list Q) : Q := fold_right Qplus 0%Q l.

(** "plus 0.1 if len(corrected)/len(original) is in [0.7, 1.3], minus 0.2
    if that ratio is below 0.5" *)
Definition ratio_term (ratio : Q) : Q :=
  if Qle_bool (7 # 10) ratio && Qle_bool ratio (13 # 10) then (1 # 10)%Q
  else if negb (Qle_bool (5 # 10) ratio) then (- (2 # 10))%Q
  else 0%Q.

Definition bonus (b : bool) (q : Q) : Q := if b then q else 0%Q.

(** The refined scorer as stated; the ratio, and with it the score, is
    undefined for an empty original. *)
Definition refined_score (original corrected : pystr) (corrections : list pystr)
  : option Q :=
  match py_div (len corrected) (len original) with
  | None => None
  | Some ratio =>
      Some (clamp01
              ((5 # 10)
               + sum_q (map listed_weight corrections)
               + ratio_term ratio
               + bonus (detect_obvious_improvements original corrected) (15 # 100)
               - bonus (detect_deterioration original corrected) (3 # 10))%Q)
  end.

(** The example of the specification. *)
Definition example_input : pystr := str "[0:00:01 - 0:00:05] 申しすございす".

Definition example_output : pystr :=
  str "[0:00:01 - 0:00:05]" ++ [LF] ++ str "申します。ございます。" ++ [LF; LF].

Definition ending_entries (log : list pystr) : nat :=
  length (filter (starts_with ENDING) log).

Definition punctuation_entries (log : list pystr) : nat :=
  length (filter (str_eqb PUNCT) log).

(** The units of the auditor's extractor and of the segmenter, as
    (header, trimmed text). *)
Definition extractor_units (text : pystr) : list (pystr * pystr) :=
  map (fun e => (timestamp e, strip (content e)))
      (extract_segments_improved text).

Definition segmenter_units (text : pystr) : list (pystr * pystr) :=
  map (fun r => (header_text (start_time r) (end_time r), original r))
      (process_segments text).

(** Serializing and segmenting again: the tuples before and after. *)
Definition written (r : segment) : pystr * pystr * pystr :=
  (start_time r, end_time r, corrected r).

Definition reread (results : list segment) : list (pystr * pystr * pystr) :=
  map key (process_segments (write_output results)).

End Stated.

Import Stated.

(** ** Notions used to state the properties *)

Module Notions.

(** Some character of [s] is not whitespace; all of them are. *)
Definition has_ink (s : pystr) : bool :=
  existsb (fun c => negb (is_space c)) s.

Definition all_space (s : pystr) : bool := forallb is_space s.

(** [t] is [body] without the whitespace at its two ends. *)
Definition is_trim_of (t body : pystr) : Prop :=
  exists pre post,
    body = pre ++ t ++ post /\
    all_space pre = true /\ all_space post = true /\ trim_ok t.

(** A unit with a character that is not whitespace. *)
Definition inked (u : pystr * pystr * pystr) : bool := has_ink (snd u).

(** A segment that carries the times of a unit and its text, trimmed. *)
Definition segment_of_unit (r : segment) (u : pystr * pystr * pystr) : Prop :=
  start_time r = fst (fst u) /\ end_time r = snd (fst u) /\
  is_trim_of (original r) (snd u).

(** *** The rules of the pipeline, one by one *)

Definition named_rules (name : pystr) (rules : list (regex * pystr))
  : list (pystr * regex * template) :=
  map (fun r => (name ++ snd r, fst r, [RLit (snd r)])) rules.

Definition tagged_rules (tag : pystr) (rules : list (regex * template))
  : list (pystr * regex * template) :=
  map (fun r => (tag, fst r, snd r)) rules.

(** The rules of the six stages in the order of the pipeline, each with
    the entry it logs. *)
Definition all_rules : list (pystr * regex * template) :=
  named_rules TECH tech_terms
  ++ named_rules ENDING ending_fixes
  ++ tagged_rules REPETITION repetition_patterns
  ++ tagged_rules FILLER FinalSystem.filler_patterns
  ++ tagged_rules NATURAL naturalness_rules
  ++ tagged_rules PUNCT punctuation_rules.

(** One rule applied to the text and the log. *)
Definition rule_step (acc : pystr * list pystr)
  (rule : pystr * regex * template) : pystr * list pystr :=
  apply_rule (fst (fst rule)) (snd (fst rule)) (snd rule) acc.

(** The turns of the rules: each rule with the text as the rules before it
    have left it. *)
Fixpoint turns (rules : list (pystr * regex * template)) (text : pystr)
  : list (pystr * regex * pystr) :=
  match rules with
  | [] => []
  | (entry, pattern, replacement) :: rules' =>
      (entry, pattern, text)
        :: turns rules'
             (if found (re_search pattern text)
              then re_sub pattern replacement text else text)
  end.

(** The pattern of the rule matches the text it meets. *)
Definition matched (turn : pystr * regex * pystr) : bool :=
  found (re_search (snd (fst turn)) (snd turn)).

(** *** The refined score, written out *)

Definition category_weight (tag : pystr) : Q :=
  if str_eqb (str "technical_terms") tag then 2 # 10
  else if str_eqb (str "repetition_removal") tag then 15 # 100
  else if str_eqb (str "grammar_fixes") tag then 15 # 100
  else if str_eqb (str "punctuation_improvement") tag then 1 # 10
  else if str_eqb (str "naturalness_improvement") tag then 1 # 10
  else if str_eqb (str "filler_removal") tag then 5 # 100
  else 2 # 100.

(** One of the three pairs: the first text in the original, the second in
    the corrected text. *)
Definition obvious_improvement (original corrected : pystr) : bool :=
  (contains (str "Day2になるDay2") original && contains (str "Day2") corrected)
  || (contains (str "ますタイトル") original
      && contains (str "ます。タイトル") corrected)
  || (contains (str "かなと思っている") original
      && contains (str "かと思") corrected).

Definition THANKS : pystr := str "ありがとうございます".
Definition THANKS_CUT : pystr := str "りがとうございます".

(** The closing phrase of the original has lost its first character. *)
Definition phrase_truncated (original corrected : pystr) : bool :=
  contains THANKS original && contains THANKS_CUT corrected
  && negb (contains THANKS corrected).

(** The closing phrase stands in both texts. *)
Definition phrase_kept (original corrected : pystr) : bool :=
  contains THANKS original && contains THANKS corrected.

(** An important word of the original is missing from the corrected text. *)
Definition keyword_missing (original corrected : pystr) : bool :=
  existsb (fun word => contains word original && negb (contains word corrected))
          [ str "講師"; str "講座"; str "皆さん"; str "研究室" ].

(** The score, with the additions in the order the code makes them. *)
Definition written_score (original corrected : pystr) (corrections : list pystr)
  : Q :=
  let score :=
    fold_left (fun score tag => score + category_weight tag)%Q
              corrections (5 # 10)%Q in
  let ratio :=
    Z.of_nat (length corrected) # Pos.of_nat (Nat.max (length original) 1) in
  let score :=
    (score
     + (if Qle_bool (7 # 10) ratio && Qle_bool ratio (13 # 10) then 1 # 10
        else if negb (Qle_bool (5 # 10) ratio) then - (2 # 10)
        else 0))%Q in
  let score :=
    (score + (if obvious_improvement original corrected then 15 # 100 else 0))%Q in
  let score :=
    (score
     - (if phrase_truncated original corrected
           || keyword_missing original corrected
        then 3 # 10 else 0))%Q in
  Qmin (Qmax score 0) 1.

(** *** The layout of a transcript, line by line *)

(** A timestamp header stands somewhere in the text. *)
Definition holds_header (s : pystr) : Prop :=
  exists pre a b r,
    is_clock a /\ is_clock b /\ s = pre ++ header_text a b ++ r.

Inductive line_kind : Type :=
| Blank
| Header (a b : pystr)
| Text (t : pystr)
| Other.

(** A line is blank, a header alone on its line, a line of text without a
    header, or something else (a header with text beside it). *)
Definition kind_of (l : pystr) : line_kind :=
  match parse_header (strip l) with
  | Some (a, b, []) => Header a b
  | Some _ => Other
  | None =>
      if header_free l
      then match strip l with
           | [] => Blank
           | c :: t => Text (c :: t)
           end
      else Other
  end.

(** Where a line stands: before the first header, or after the header
    with times [a], [b], with the line of text seen since. *)
Inductive place : Type :=
| Start
| Open (a b : pystr) (t : option pystr).

(** Nothing but blank lines before the first header, every header alone
    on its line, and at most one line of text after each header. *)
Fixpoint laid_out (p : place) (lines : list pystr) : bool :=
  match lines with
  | [] => true
  | l :: lines' =>
      match kind_of l, p with
      | Blank, _ => laid_out p lines'
      | Header a b, _ => laid_out (Open a b None) lines'
      | Text t, Open a b None => laid_out (Open a b (Some t)) lines'
      | _, _ => false
      end
  end.

Definition flush (p : place) : list (pystr * pystr) :=
  match p with
  | Open a b (Some t) => [(header_text a b, t)]
  | _ => []
  end.

(** The units of a transcript that is laid out so. *)
Fixpoint layout_units (p : place) (lines : list pystr) : list (pystr * pystr) :=
  match lines with
  | [] => flush p
  | l :: lines' =>
      match kind_of l, p with
      | Header a b, _ => flush p ++ layout_units (Open a b None) lines'
      | Text t, Open a b None => layout_units (Open a b (Some t)) lines'
      | _, _ => layout_units p lines'
      end
  end.

(** The text after the end of a line: every further line behind a line
    feed. *)
Definition tail_text (lines : list pystr) : pystr :=
  flat_map (fun l => LF :: l) lines.

(** The units of the segmenter as (header, text). *)
Definition unit_pairs (us : list (pystr * pystr * pystr)) : list (pystr * pystr) :=
  map (fun u => (header_text (fst (fst u)) (snd (fst u)), snd u))
      (filter has_text (map trimmed us)).

(** The body read so far after a header agrees with the place. *)
Definition body_at (t : option pystr) (body : pystr) : Prop :=
  match t with
  | None => all_space body = true
  | Some t => t <> [] /\ is_trim_of t body
  end.

(** The state of the extractor agrees with the place. *)
Definition extractor_at (p : place) (cur : raw_segment) : Prop :=
  match p with
  | Start => content cur = []
  | Open a b None => content cur = [] /\ timestamp cur = header_text a b
  | Open a b (Some t) =>
      timestamp cur = header_text a b /\ content cur = [] ++ t ++ str " " /\
      t <> [] /\ trim_ok t
  end.

(** *** The segments of the two pipelines, without their corrections *)

Definition enhanced_key (r : nova_segment) : nat * pystr * pystr * pystr :=
  (n_id r, n_start_time r, n_end_time r, n_original r).

Definition rule_key (r : segment) : nat * pystr * pystr * pystr :=
  (seg_id r, start_time r, end_time r, original r).

End Notions.

Import Notions.

(** ** The lightweight score in double precision

    The scores above are rationals.  The lightweight score takes few
    values, and here it is computed on binary64 numbers as Python does. *)

Module Binary64.

Import Floats.

(** [min(1.0, n / 5 + 0.3)] for a log of [n] entries: [/] is the correctly
    rounded quotient, [0.3] the binary64 number nearest to 3/10, and
    [min(a, b)] is [b] when [b < a] and [a] otherwise. *)
#[warnings="-inexact-float"]
Definition score_b64 (n : nat) : float :=
  let x := (PrimFloat.of_uint63 (Uint63.of_Z (Z.of_nat n)) / 5 + 0.3)%float in
  if (x <? 1)%float then x else 1%float.

Definition simple_quality_b64 (corrections_log : list pystr) : float :=
  score_b64 (length corrections_log).

(** The rational number a finite binary64 number stands for. *)
Definition Q_of_float (x : float) : option Q :=
  match Prim2SF x with
  | S754_zero _ => Some 0%Q
  | S754_finite s m e =>
      Some ((if s then - inject_Z (Zpos m) else inject_Z (Zpos m))
            * (2 # 1) ^ e)%Q
  | _ => None
  end.

(** The values the score takes: 0.3, 0.5, 0.7, 0.8999999999999999 and 1.0
    (the binary64 numbers Python prints so). *)
Definition b64_scores : list float :=
  [ 0x1.3333333333333p-2; 0x1p-1; 0x1.6666666666666p-1;
    0x1.cccccccccccccp-1; 0x1p+0 ]%float.

(** The value listed for [n] entries: from four entries on 1.0. *)
Definition listed_score (n : nat) : float := nth n b64_scores 1%float.

Definition same_b64 (x y : float) : bool := (x =? y)%float.

(** The binary64 number nearest to 9/10, which Python prints 0.9. *)
#[warnings="-inexact-float"]
Definition nine_tenths : float := 0.9%float.

(** The binary64 score of [n] entries is the value listed for [n] and is
    within 2^-53 of the rational score. *)
Definition b64_agrees (n : nat) : bool :=
  let x := score_b64 n in
  same_b64 x (listed_score n)
  && match Q_of_float x with
     | Some v =>
         Qle_bool (Qabs (v - simple_quality (repeat [] n))) (1 # 2 ^ 53)
     | None => false
     end.

End Binary64.

Import Binary64.

(** * Properties *)

(** ** The matcher on two rules of the pipeline *)

Example sub_ending_fix :
  re_sub (cat [lit "ございす"; space_or_end]) [RLit (str "ございます")]
         (str "申しすございす")
  = str "申しすございます".
Proof. vm_compute. reflexivity. Qed.

Example sub_repetition :
  re_sub (cat [Bnd; Grp 1 (Rep 1 (Cls CWord)); lit "になる"; Ref 1; Bnd])
         [RGrp 1] (str "本日 Day2になるDay2 の講座")
  = str "本日 Day2 の講座".
Proof. vm_compute. reflexivity. Qed.

(** ** Strings *)

Lemma str_eqb_eq (a b : pystr) : str_eqb a b = true <-> a = b.
Proof.
  revert b; induction a as [|x a IH]; intros [|y b]; simpl; split; intro H;
    try reflexivity; try discriminate.
  - apply andb_true_iff in H as [H1 H2].
    apply N.eqb_eq in H1. apply IH in H2. congruence.
  - injection H as -> ->. rewrite N.eqb_refl. simpl. now apply IH.
Qed.

Lemma starts_with_app (l s : pystr) : starts_with l (l ++ s) = true.
Proof. induction l as [|c l IH]; simpl; [reflexivity|]. now rewrite N.eqb_refl. Qed.

Lemma starts_with_split (l s : pystr) :
  starts_with l s = true -> s = l ++ skipn (length l) s.
Proof.
  revert s; induction l as [|c l IH]; intros s H; simpl in *; [reflexivity|].
  destruct s as [|x s]; [discriminate|].
  apply andb_true_iff in H as [H1 H2]. apply N.eqb_eq in H1. subst x.
  simpl. f_equal. now apply IH.
Qed.

Lemma skipn_app_exact {A : Type} (l r : list A) : skipn (length l) (l ++ r) = r.
Proof. induction l; simpl; auto. Qed.

Lemma firstn_app_exact {A : Type} (l r : list A) : firstn (length l) (l ++ r) = l.
Proof. induction l; simpl; [reflexivity|]. now f_equal. Qed.

(** ** The matcher on timestamp patterns *)

Lemma last_of_app (t1 t2 : pystr) (p : option codepoint) :
  last_of (t1 ++ t2) p = last_of t2 (last_of t1 p).
Proof. unfold last_of. apply fold_left_app. Qed.

Lemma moved_moved t1 g1 t2 g2 st :
  moved t2 g2 (moved t1 g1 st) = moved (t1 ++ t2) (g2 ++ g1) st.
Proof.
  unfold moved; simpl. f_equal.
  - now rewrite last_of_app.
  - rewrite length_app, skipn_skipn. f_equal. lia.
  - rewrite length_app. lia.
  - now rewrite app_assoc.
Qed.

Lemma eat_moved (l : pystr) (st : mstate) :
  eat l st = if starts_with l (rest st) then Some (moved l [] st) else None.
Proof.
  revert st; induction l as [|c l IH]; intro st; simpl.
  - unfold moved; simpl. destruct st; simpl. now rewrite Nat.add_0_r.
  - destruct (rest st) as [|x xs] eqn:E; [reflexivity|].
    rewrite N.eqb_sym.
    destruct (c =? x) eqn:Ec; simpl; [|reflexivity].
    apply N.eqb_eq in Ec. subst x.
    rewrite IH. simpl. destruct (starts_with l xs); [|reflexivity].
    f_equal. unfold moved, step; simpl. rewrite E. simpl.
    f_equal. lia.
Qed.

Lemma span_digits_split (s : pystr) :
  let (d, r) := span_digits s in
  s = d ++ r /\ forallb is_decimal d = true /\ digit_led r = false.
Proof.
  induction s as [|c s IH]; simpl; [auto|].
  destruct (is_decimal c) eqn:E.
  - destruct (span_digits s) as [d r]. destruct IH as (-> & H1 & H2).
    simpl. rewrite E. auto.
  - simpl. auto.
Qed.

Lemma span_digits_app (d r : pystr) :
  forallb is_decimal d = true -> digit_led r = false ->
  span_digits (d ++ r) = (d, r).
Proof.
  intros Hd Hr. induction d as [|c d IH]; simpl in *.
  - destruct r as [|x r]; [reflexivity|]. simpl in *. now rewrite Hr.
  - apply andb_true_iff in Hd as [Hc Hd]. rewrite Hc, (IH Hd). reflexivity.
Qed.

Lemma moved_nil (st : mstate) : moved [] [] st = st.
Proof. unfold moved; destruct st; simpl. now rewrite Nat.add_0_r. Qed.

(** The greedy loop over digits, when what follows cannot start with a
    digit: every shorter run is refused by the continuation, so the loop
    returns what the continuation says after the longest run. *)
Lemma rep_loop_digits (k : mstate -> option mstate) (lo : nat) :
  digit_blind k ->
  forall (fuel cnt : nat) (st : mstate),
    (length (rest st) <= fuel)%nat ->
    rep_loop (rmatch (Cls CDigit)) lo k fuel cnt st
    = let (d, _) := span_digits (rest st) in
      if Nat.leb lo (cnt + length d) then k (moved d [] st) else None.
Proof.
  intros Hk fuel. induction fuel as [|f IH]; intros cnt st Hlen.
  - destruct (rest st) as [|x xs] eqn:E; [|simpl in Hlen; lia].
    simpl. rewrite Nat.add_0_r, moved_nil. reflexivity.
  - cbn [rep_loop rmatch].
    destruct (rest st) as [|x xs] eqn:E.
    + simpl. rewrite Nat.add_0_r, moved_nil. reflexivity.
    + cbn [cset_mem span_digits]. destruct (is_decimal x) eqn:Ex.
      * cbn [step rest length].
        assert (Hlt : Nat.ltb (length xs) (S (length xs)) = true)
          by (apply Nat.ltb_lt; lia).
        rewrite Hlt.
        rewrite IH by (simpl in *; lia).
        cbn [step rest].
        destruct (span_digits xs) as [d r] eqn:Ed.
        cbn [length].
        replace (S cnt + length d)%nat with (cnt + S (length d))%nat by lia.
        replace (moved d [] (step st x xs)) with (moved (x :: d) [] st).
        2:{ unfold moved, step; simpl. rewrite E. f_equal. lia. }
        destruct (Nat.leb lo (cnt + S (length d))) eqn:El.
        -- destruct (k (moved (x :: d) [] st)) eqn:Ek; [reflexivity|].
           simpl. destruct (Nat.leb lo cnt); [|reflexivity].
           apply Hk. rewrite E. simpl. exact Ex.
        -- simpl. destruct (Nat.leb lo cnt) eqn:El'; [|reflexivity].
           apply Nat.leb_le in El'. apply Nat.leb_gt in El. lia.
      * simpl. rewrite Nat.add_0_r, moved_nil.
        destruct (Nat.leb lo cnt); reflexivity.
Qed.

Lemma scan_sound (r : regex) :
  forall s t g r0, scan r s = Some (t, g, r0) -> s = t ++ r0.
Proof.
  induction r as [l|cs|a IHa b IHb|a IHa b IHb|lo a IHa|n a IHa|n|a IHa|a IHa| |];
    intros s t g r0 H; simpl in H; try discriminate.
  - destruct (starts_with l s) eqn:E; [|discriminate].
    injection H as <- <- <-. now apply starts_with_split.
  - destruct (scan a s) as [[[t1 g1] r1]|] eqn:Ea; [|discriminate].
    destruct (scan b r1) as [[[t2 g2] r2]|] eqn:Eb; [|discriminate].
    injection H as <- <- <-.
    rewrite (IHa _ _ _ _ Ea), (IHb _ _ _ _ Eb). now rewrite app_assoc.
  - destruct lo as [|[|lo]]; try discriminate.
    destruct a; try discriminate. destruct cs; try discriminate.
    pose proof (span_digits_split s) as Hs.
    destruct (span_digits s) as [[|c d] r]; [discriminate|].
    injection H as <- <- <-. tauto.
  - destruct (scan a s) as [[[t1 g1] r1]|] eqn:Ea; [|discriminate].
    injection H as <- <- <-. eauto.
Qed.

Lemma closed_start_blind (r : regex) :
  closed_start r = true -> forall k, digit_blind (rmatch r k).
Proof.
  induction r as [l|cs|a IHa b IHb|a IHa b IHb|lo a IHa|n a IHa|n|a IHa|a IHa| |];
    intros Hc k st Hd; simpl in Hc; try discriminate.
  - destruct l as [|c l]; [discriminate|].
    cbn [rmatch eat]. destruct (rest st) as [|x xs]; [reflexivity|].
    simpl in Hd. destruct (x =? c) eqn:E; [|reflexivity].
    apply N.eqb_eq in E. subst x. rewrite Hd in Hc. discriminate.
  - cbn [rmatch]. now apply IHa.
  - cbn [rmatch]. now apply IHa.
Qed.

(** On a timestamp pattern the matcher hands to its continuation exactly
    what the scanner reads, provided the continuation cannot go on with a
    digit when the pattern ends with a run of digits. *)
Theorem rmatch_scan (r : regex) :
  timestamp_like r = true ->
  forall k st,
    (open_end r = true -> digit_blind k) ->
    rmatch r k st
    = match scan r (rest st) with
      | Some (t, g, _) => k (moved t g st)
      | None => None
      end.
Proof.
  induction r as [l|cs|a IHa b IHb|a IHa b IHb|lo a IHa|n a IHa|n|a IHa|a IHa| |];
    intros Hw k st Hk; simpl in Hw; try discriminate.
  - cbn [rmatch scan]. rewrite eat_moved.
    destruct (starts_with l (rest st)); reflexivity.
  - apply andb_true_iff in Hw as [Hw Hf].
    apply andb_true_iff in Hw as [Hwa Hwb].
    cbn [rmatch scan].
    rewrite (IHa Hwa).
    2:{ intro Ho. rewrite Ho in Hf. simpl in Hf. now apply closed_start_blind. }
    destruct (scan a (rest st)) as [[[t1 g1] r1]|] eqn:Ea; [|reflexivity].
    rewrite (IHb Hwb) by exact Hk.
    assert (Hr : rest (moved t1 g1 st) = r1).
    { simpl. rewrite (scan_sound _ _ _ _ _ Ea). apply skipn_app_exact. }
    rewrite Hr.
    destruct (scan b r1) as [[[t2 g2] r2]|]; [|reflexivity].
    now rewrite moved_moved.
  - destruct lo as [|[|lo]]; try discriminate.
    destruct a; try discriminate. destruct cs; try discriminate.
    cbn [rmatch scan].
    rewrite rep_loop_digits by (auto; lia).
    destruct (span_digits (rest st)) as [[|c d] r]; reflexivity.
  - cbn [rmatch scan].
    rewrite (IHa Hw).
    2:{ intros Ho st' Hd. apply Hk; [exact Ho|exact Hd]. }
    destruct (scan a (rest st)) as [[[t g] r0]|] eqn:Ea; [|reflexivity].
    f_equal. unfold set_group, moved; simpl. f_equal.
    f_equal. f_equal.
    replace (used st + length t - used st)%nat with (length t) by lia.
    rewrite (scan_sound _ _ _ _ _ Ea). apply firstn_app_exact.
Qed.

(** ** The scanner on clocks and headers *)

Lemma scan_digits_inv s t g r :
  scan digits s = Some (t, g, r) ->
  g = [] /\ digit_run t /\ s = t ++ r /\ digit_led r = false.
Proof.
  unfold digits; cbn [scan]. intro H.
  pose proof (span_digits_split s) as Hs.
  destruct (span_digits s) as [[|c d] r']; [discriminate|].
  injection H as <- <- <-. destruct Hs as (Hs & Hd & Hr).
  repeat split; auto. discriminate.
Qed.

Lemma scan_digits_intro d r :
  digit_run d -> digit_led r = false -> scan digits (d ++ r) = Some (d, [], r).
Proof.
  intros [Hn Hd] Hr. unfold digits; cbn [scan].
  rewrite (span_digits_app _ _ Hd Hr). destruct d; [contradiction|reflexivity].
Qed.

Lemma scan_lit_inv l s t g r :
  scan (Lit l) s = Some (t, g, r) -> t = l /\ g = [] /\ s = l ++ r.
Proof.
  cbn [scan]. destruct (starts_with l s) eqn:E; [|discriminate].
  intro H; injection H as <- <- <-.
  split; [reflexivity|split; [reflexivity|]].
  exact (starts_with_split _ _ E).
Qed.

Lemma scan_lit_intro l r : scan (Lit l) (l ++ r) = Some (l, [], r).
Proof. cbn [scan]. now rewrite starts_with_app, skipn_app_exact. Qed.

Lemma scan_seq_inv a b s t g r :
  scan (Seq a b) s = Some (t, g, r) ->
  exists t1 g1 r1 t2 g2,
    scan a s = Some (t1, g1, r1) /\ scan b r1 = Some (t2, g2, r) /\
    t = t1 ++ t2 /\ g = g2 ++ g1.
Proof.
  cbn [scan].
  destruct (scan a s) as [[[t1 g1] r1]|] eqn:Ea; [|discriminate].
  destruct (scan b r1) as [[[t2 g2] r2]|] eqn:Eb; [|discriminate].
  intro H; injection H as <- <- <-. now exists t1, g1, r1, t2, g2.
Qed.

Lemma scan_seq_intro a b s t1 g1 r1 t2 g2 r2 :
  scan a s = Some (t1, g1, r1) -> scan b r1 = Some (t2, g2, r2) ->
  scan (Seq a b) s = Some (t1 ++ t2, g2 ++ g1, r2).
Proof. intros Ha Hb. cbn [scan]. now rewrite Ha, Hb. Qed.

Lemma scan_grp_inv n a s t g r :
  scan (Grp n a) s = Some (t, g, r) ->
  exists g', scan a s = Some (t, g', r) /\ g = (n, t) :: g'.
Proof.
  cbn [scan]. destruct (scan a s) as [[[t1 g1] r1]|] eqn:Ea; [|discriminate].
  intro H; injection H as <- <- <-. now exists g1.
Qed.

Lemma scan_grp_intro n a s t g r :
  scan a s = Some (t, g, r) -> scan (Grp n a) s = Some (t, (n, t) :: g, r).
Proof. intro H. cbn [scan]. now rewrite H. Qed.

Lemma digit_led_colon r : digit_led (str ":" ++ r) = false.
Proof. reflexivity. Qed.

Lemma scan_clock_inv s t g r :
  scan clock s = Some (t, g, r) ->
  g = [] /\ is_clock t /\ s = t ++ r /\ digit_led r = false.
Proof.
  unfold clock, cat. intro H.
  apply scan_seq_inv in H as (h & g1 & r1 & t1 & g1' & Hh & H & -> & ->).
  apply scan_seq_inv in H as (c1 & g2 & r2 & t2 & g2' & Hc1 & H & -> & ->).
  apply scan_seq_inv in H as (m & g3 & r3 & t3 & g3' & Hm & H & -> & ->).
  apply scan_seq_inv in H as (c2 & g4 & r4 & sec & g4' & Hc2 & Hs & -> & ->).
  apply scan_digits_inv in Hh as (-> & Dh & -> & _).
  apply scan_lit_inv in Hc1 as (-> & -> & ->).
  apply scan_digits_inv in Hm as (-> & Dm & -> & _).
  apply scan_lit_inv in Hc2 as (-> & -> & ->).
  apply scan_digits_inv in Hs as (-> & Ds & -> & Hr).
  repeat split; auto.
  - exists h, m, sec. repeat split; auto; try apply Dh; try apply Dm; try apply Ds.
  - now rewrite <- !app_assoc.
Qed.

Lemma scan_clock_intro a r :
  is_clock a -> digit_led r = false -> scan clock (a ++ r) = Some (a, [], r).
Proof.
  intros (h & m & sec & Dh & Dm & Ds & ->) Hr. unfold clock, cat.
  rewrite <- !app_assoc.
  change (@nil (nat * pystr)) with ((((@nil (nat * pystr) ++ []) ++ []) ++ []) ++ []).
  apply scan_seq_intro with (r1 := str ":" ++ m ++ str ":" ++ sec ++ r).
  { now apply scan_digits_intro. }
  apply scan_seq_intro with (r1 := m ++ str ":" ++ sec ++ r).
  { apply scan_lit_intro. }
  apply scan_seq_intro with (r1 := str ":" ++ sec ++ r).
  { now apply scan_digits_intro. }
  apply scan_seq_intro with (r1 := sec ++ r).
  { apply scan_lit_intro. }
  now apply scan_digits_intro.
Qed.

Lemma scan_TIMES_inv s t g r :
  scan TIMES s = Some (t, g, r) ->
  exists a b,
    is_clock a /\ is_clock b /\ t = header_text a b /\
    g = [(2%nat, b); (1%nat, a)] /\ s = t ++ r.
Proof.
  intro H. pose proof (scan_sound _ _ _ _ _ H) as Hs. revert H.
  unfold TIMES, cat. intro H.
  apply scan_seq_inv in H as (o & g1 & r1 & t1 & g1' & Ho & H & -> & ->).
  apply scan_seq_inv in H as (a & g2 & r2 & t2 & g2' & Ha & H & -> & ->).
  apply scan_seq_inv in H as (d & g3 & r3 & t3 & g3' & Hd & H & -> & ->).
  apply scan_seq_inv in H as (b & g4 & r4 & c & g4' & Hb & Hc & -> & ->).
  apply scan_lit_inv in Ho as (-> & -> & _).
  apply scan_grp_inv in Ha as (ga & Ha & ->).
  apply scan_lit_inv in Hd as (-> & -> & _).
  apply scan_grp_inv in Hb as (gb & Hb & ->).
  apply scan_lit_inv in Hc as (-> & -> & _).
  apply scan_clock_inv in Ha as (-> & Ca & _ & _).
  apply scan_clock_inv in Hb as (-> & Cb & _ & _).
  exists a, b. repeat split; auto.
Qed.

Lemma digit_led_text (l r : pystr) :
  digit_led l = false -> l <> [] -> digit_led (l ++ r) = false.
Proof. destruct l; [contradiction|auto]. Qed.

Lemma scan_seq_build a b s t1 g1 r1 t2 g2 r2 t g :
  scan a s = Some (t1, g1, r1) -> scan b r1 = Some (t2, g2, r2) ->
  t = t1 ++ t2 -> g = g2 ++ g1 ->
  scan (Seq a b) s = Some (t, g, r2).
Proof. intros Ha Hb -> ->. exact (scan_seq_intro _ _ _ _ _ _ _ _ _ Ha Hb). Qed.

Lemma scan_TIMES_intro a b r :
  is_clock a -> is_clock b ->
  scan TIMES (header_text a b ++ r)
  = Some (header_text a b, [(2%nat, b); (1%nat, a)], r).
Proof.
  intros Ca Cb. unfold TIMES, cat, header_text, lit. rewrite <- !app_assoc.
  eapply scan_seq_build; [apply scan_lit_intro| |reflexivity|].
  - eapply scan_seq_build;
      [apply scan_grp_intro; now apply scan_clock_intro| |reflexivity|].
    + eapply scan_seq_build; [apply scan_lit_intro| |reflexivity|].
      * eapply scan_seq_build;
          [apply scan_grp_intro; now apply scan_clock_intro
          |apply scan_lit_intro|reflexivity|].
        reflexivity.
      * reflexivity.
    + reflexivity.
  - reflexivity.
Qed.

Lemma parse_header_inv s a b r :
  parse_header s = Some (a, b, r) ->
  is_clock a /\ is_clock b /\ s = header_text a b ++ r.
Proof.
  unfold parse_header.
  destruct (scan TIMES s) as [[[t g] r0]|] eqn:E; [|discriminate].
  apply scan_TIMES_inv in E as (a' & b' & Ca & Cb & -> & -> & ->).
  intro H; injection H as <- <- <-. auto.
Qed.

Lemma parse_header_intro a b r :
  is_clock a -> is_clock b ->
  parse_header (header_text a b ++ r) = Some (a, b, r).
Proof.
  intros Ca Cb. unfold parse_header. now rewrite scan_TIMES_intro.
Qed.

Lemma scan_TIMES_eq s :
  scan TIMES s
  = match parse_header s with
    | Some (a, b, r) => Some (header_text a b, [(2%nat, b); (1%nat, a)], r)
    | None => None
    end.
Proof.
  unfold parse_header.
  destruct (scan TIMES s) as [[[t g] r0]|] eqn:E; [|reflexivity].
  apply scan_TIMES_inv in E as (a & b & Ca & Cb & -> & -> & ->). reflexivity.
Qed.

Lemma scan_erase (r : regex) :
  forall s,
    scan (erase r) s
    = match scan r s with
      | Some (t, _, r0) => Some (t, [], r0)
      | None => None
      end.
Proof.
  induction r as [l|cs|a IHa b IHb|a IHa b IHb|lo a IHa|n a IHa|n|a IHa|a IHa| |];
    intro s; try reflexivity.
  - cbn [erase scan]. destruct (starts_with l s); reflexivity.
  - cbn [erase scan]. rewrite IHa.
    destruct (scan a s) as [[[t1 g1] r1]|]; [|reflexivity].
    rewrite IHb. destruct (scan b r1) as [[[t2 g2] r2]|]; reflexivity.
  - destruct lo as [|[|lo]]; try reflexivity.
    destruct a; try reflexivity. destruct cs; try reflexivity.
    cbn [erase scan]. destruct (span_digits s) as [[|c d] r]; reflexivity.
  - cbn [erase scan]. rewrite IHa.
    destruct (scan a s) as [[[t1 g1] r1]|]; reflexivity.
Qed.

Lemma scan_HEADER_LINE_eq s :
  scan HEADER_LINE s
  = match parse_header s with
    | Some (a, b, r) => Some (header_text a b, [], r)
    | None => None
    end.
Proof.
  change HEADER_LINE with (erase TIMES).
  rewrite scan_erase, scan_TIMES_eq.
  destruct (parse_header s) as [[[a b] r]|]; reflexivity.
Qed.

Lemma scan_HEADER_eq s :
  scan HEADER s
  = match parse_header s with
    | Some (a, b, r) =>
        Some (header_text a b, [(1%nat, header_text a b)], r)
    | None => None
    end.
Proof.
  change HEADER with (Grp 1 HEADER_LINE). cbn [scan].
  rewrite scan_HEADER_LINE_eq.
  destruct (parse_header s) as [[[a b] r]|]; reflexivity.
Qed.

(** ** The matcher on headers *)

Lemma last_of_header a b p : last_of (header_text a b) p = Some (chr "]").
Proof.
  unfold header_text. rewrite !app_assoc. now rewrite last_of_app.
Qed.

Lemma header_text_length a b : exists n, length (header_text a b) = S n.
Proof. unfold header_text. simpl. eauto. Qed.

Lemma rmatch_HEADER p s :
  rmatch HEADER Some (start p s)
  = match parse_header s with
    | Some (a, b, r) => Some (header_end a b r)
    | None => None
    end.
Proof.
  rewrite rmatch_scan; [|reflexivity|discriminate].
  cbn [rest start]. rewrite scan_HEADER_eq.
  destruct (parse_header s) as [[[a b] r]|] eqn:E; [|reflexivity].
  apply parse_header_inv in E as (_ & _ & ->).
  unfold moved, header_end; cbn [prev rest used groups start].
  now rewrite last_of_header, skipn_app_exact, app_nil_r.
Qed.

Lemma try_HEADER p s :
  match rmatch HEADER Some (start p s) with
  | Some st => Some (Match [] (firstn (used st) s) st)
  | None => None
  end
  = match parse_header s with
    | Some (a, b, r) => Some (Match [] (header_text a b) (header_end a b r))
    | None => None
    end.
Proof.
  rewrite rmatch_HEADER.
  destruct (parse_header s) as [[[a b] r]|] eqn:E; [|reflexivity].
  apply parse_header_inv in E as (_ & _ & ->).
  cbn [header_end used]. now rewrite firstn_app_exact.
Qed.

Lemma search_from_HEADER s :
  forall p,
    search_from HEADER p s
    = match find_header s with
      | Some (pre, a, b, r) =>
          Some (Match pre (header_text a b) (header_end a b r))
      | None => None
      end.
Proof.
  induction s as [|c s IH]; intro p.
  - cbn [search_from find_header].
    pose proof (try_HEADER p []) as T.
    destruct (rmatch HEADER Some (start p [])) as [st|];
      destruct (parse_header []) as [[[a b] r]|]; try discriminate; auto.
  - cbn [search_from find_header].
    pose proof (try_HEADER p (c :: s)) as T.
    destruct (rmatch HEADER Some (start p (c :: s))) as [st|];
      destruct (parse_header (c :: s)) as [[[a b] r]|]; try discriminate; auto.
    rewrite IH. destruct (find_header s) as [[[[pre a] b] r]|]; reflexivity.
Qed.

Lemma split_from_HEADER fuel :
  forall p s, split_from fuel HEADER p s = pieces fuel s.
Proof.
  induction fuel as [|f IH]; intros p s; [reflexivity|].
  cbn [split_from pieces]. rewrite search_from_HEADER.
  destruct (find_header s) as [[[[pre a] b] r]|]; [|reflexivity].
  cbn [m_end m_pre m_group header_end used rest prev groups group].
  destruct (header_text_length a b) as [n ->].
  cbn [Nat.eqb]. now rewrite IH.
Qed.

Lemma read_times_header a b :
  is_clock a -> is_clock b -> read_times (header_text a b) = (a, b).
Proof.
  intros Ca Cb. unfold read_times, re_search.
  destruct (header_text a b) as [|c h] eqn:Eh.
  { unfold header_text in Eh. discriminate. }
  cbn [search_from].
  rewrite rmatch_scan; [|reflexivity|discriminate].
  cbn [rest start]. rewrite <- Eh.
  rewrite <- (app_nil_r (header_text a b)) at 1.
  rewrite scan_TIMES_intro by assumption.
  reflexivity.
Qed.

(** ** The segmenter, unit by unit *)

Lemma find_header_inv s :
  forall pre a b r,
    find_header s = Some (pre, a, b, r) ->
    is_clock a /\ is_clock b /\ s = pre ++ header_text a b ++ r /\
    parse_header (header_text a b ++ r) = Some (a, b, r).
Proof.
  induction s as [|c s IH]; intros pre a b r H; cbn [find_header] in H.
  - destruct (parse_header []) as [[[a' b'] r']|] eqn:E; [|discriminate].
    injection H as <- <- <- <-.
    pose proof (parse_header_inv _ _ _ _ E) as (Ca & Cb & Hs).
    repeat split; auto. now rewrite <- Hs.
  - destruct (parse_header (c :: s)) as [[[a' b'] r']|] eqn:E.
    + injection H as <- <- <- <-.
      pose proof (parse_header_inv _ _ _ _ E) as (Ca & Cb & Hs).
      repeat split; auto. now rewrite <- Hs.
    + destruct (find_header s) as [[[[pre' a'] b'] r']|] eqn:F; [|discriminate].
      injection H as <- <- <- <-.
      destruct (IH _ _ _ _ eq_refl) as (Ca & Cb & -> & P).
      repeat split; auto.
Qed.

Lemma pieces_units_after fuel :
  forall a b s,
    header_text a b :: pieces fuel s = flat_units (units_after fuel a b s).
Proof.
  induction fuel as [|f IH]; intros a b s; [reflexivity|].
  cbn [pieces units_after].
  destruct (find_header s) as [[[[body a'] b'] r]|]; [|reflexivity].
  cbn [flat_units flat_map app]. f_equal. f_equal. apply IH.
Qed.

Lemma re_split_HEADER text :
  re_split HEADER text = preamble text :: flat_units (header_units text).
Proof.
  unfold re_split. rewrite split_from_HEADER.
  unfold preamble, header_units. cbn [pieces].
  destruct (find_header text) as [[[[pre a] b] r]|]; [|reflexivity].
  f_equal. apply pieces_units_after.
Qed.

Lemma units_after_clocked fuel :
  forall a b s,
    is_clock a -> is_clock b -> Forall clocked (units_after fuel a b s).
Proof.
  induction fuel as [|f IH]; intros a b s Ca Cb; cbn [units_after].
  - constructor; [split; assumption|constructor].
  - destruct (find_header s) as [[[[body a'] b'] r]|] eqn:F.
    + apply find_header_inv in F as (Ca' & Cb' & _).
      constructor; [split; assumption|]. now apply IH.
    + constructor; [split; assumption|constructor].
Qed.

Lemma header_units_clocked text : Forall clocked (header_units text).
Proof.
  unfold header_units.
  destruct (find_header text) as [[[[pre a] b] r]|] eqn:F; [|constructor].
  apply find_header_inv in F as (Ca & Cb & _). now apply units_after_clocked.
Qed.

Lemma flat_units_length us : length (flat_units us) = (2 * length us)%nat.
Proof.
  induction us as [|[[a b] body] us IH]; [reflexivity|].
  cbn [flat_units flat_map app length] in *. unfold flat_units in IH. lia.
Qed.

(** A turn of the loop at the index of a unit's header is [add_unit]. *)
Lemma segment_step_unit front a b body back results :
  is_clock a -> is_clock b ->
  segment_step (front ++ header_text a b :: body :: back) results (length front)
  = add_unit results (a, b, body).
Proof.
  intros Ca Cb. unfold segment_step, add_unit.
  assert (L : Nat.ltb (length front + 1)
                (length (front ++ header_text a b :: body :: back)) = true).
  { apply Nat.ltb_lt. rewrite length_app. simpl. lia. }
  rewrite L.
  rewrite nth_middle.
  replace (front ++ header_text a b :: body :: back)
    with ((front ++ [header_text a b]) ++ body :: back)
    by (now rewrite <- app_assoc).
  replace (length front + 1)%nat with (length (front ++ [header_text a b]))
    by (rewrite length_app; reflexivity).
  rewrite nth_middle.
  rewrite read_times_header by assumption.
  destruct (strip body) as [|c content]; [reflexivity|].
  destruct (correct_text (c :: content)) as [[fixed log] q]. reflexivity.
Qed.

Lemma loop_units us :
  forall front fuel results,
    Forall clocked us ->
    (length us <= fuel)%nat ->
    fold_left (segment_step (front ++ flat_units us))
              (range2 fuel (length front) (length (front ++ flat_units us)))
              results
    = fold_left add_unit us results.
Proof.
  induction us as [|[[a b] body] us IH]; intros front fuel results Hc Hf.
  - cbn [flat_units flat_map]. rewrite app_nil_r.
    destruct fuel as [|f]; [reflexivity|].
    cbn [range2]. now rewrite Nat.ltb_irrefl.
  - destruct fuel as [|f]; [simpl in Hf; lia|].
    inversion Hc as [|u us' Hu Hc']; subst. destruct Hu as [Ca Cb].
    cbn [range2].
    assert (L : Nat.ltb (length front)
                  (length (front ++ flat_units ((a, b, body) :: us))) = true).
    { apply Nat.ltb_lt. rewrite length_app, flat_units_length. simpl. lia. }
    rewrite L. cbn [fold_left].
    change (flat_units ((a, b, body) :: us))
      with (header_text a b :: body :: flat_units us).
    rewrite segment_step_unit by assumption.
    replace (front ++ header_text a b :: body :: flat_units us)
      with ((front ++ [header_text a b; body]) ++ flat_units us)
      by (now rewrite <- app_assoc).
    replace (length front + 2)%nat with (length (front ++ [header_text a b; body]))
      by (rewrite length_app; reflexivity).
    apply IH; [assumption|simpl in Hf; lia].
Qed.

(** The segmenter adds the units of the text in their order. *)
Lemma process_segments_units text :
  process_segments text = fold_left add_unit (header_units text) [].
Proof.
  unfold process_segments. rewrite re_split_HEADER.
  apply (loop_units (header_units text) [preamble text]
                     (length (preamble text :: flat_units (header_units text)))
                     []).
  - apply header_units_clocked.
  - cbn [length]. rewrite flat_units_length. lia.
Qed.

(** ** [strip] *)

Lemma lstrip_fix s : space_led s = false -> lstrip s = s.
Proof. destruct s as [|c s]; simpl; [reflexivity|]. now intros ->. Qed.

Lemma lstrip_led s : space_led (lstrip s) = false.
Proof.
  induction s as [|c s IH]; simpl; [reflexivity|].
  destruct (is_space c) eqn:E; [exact IH|]. simpl. exact E.
Qed.

Lemma lstrip_keep x h : is_space h = false -> lstrip (x ++ [h]) = lstrip x ++ [h].
Proof.
  intro H. induction x as [|c x IH]; simpl.
  - now rewrite H.
  - destruct (is_space c); [exact IH|reflexivity].
Qed.

Lemma rstrip_led s : space_led s = false -> space_led (rstrip s) = false.
Proof.
  destruct s as [|h s]; [reflexivity|]. simpl. intro H.
  unfold rstrip. simpl. rewrite (lstrip_keep _ _ H), rev_app_distr. simpl. exact H.
Qed.

Lemma rstrip_rev_led s : space_led (rev (rstrip s)) = false.
Proof. unfold rstrip. rewrite rev_involutive. apply lstrip_led. Qed.

Lemma strip_ok s : trim_ok (strip s).
Proof.
  split.
  - unfold strip. apply rstrip_led, lstrip_led.
  - unfold strip. apply rstrip_rev_led.
Qed.

Lemma strip_fix t : trim_ok t -> strip t = t.
Proof.
  intros [H1 H2]. unfold strip, rstrip.
  rewrite (lstrip_fix _ H1), (lstrip_fix _ H2). apply rev_involutive.
Qed.

Lemma strip_padded (pre post t : pystr) :
  forallb is_space pre = true -> forallb is_space post = true ->
  trim_ok t -> t <> [] ->
  strip (pre ++ t ++ post) = t.
Proof.
  intros Hpre Hpost [H1 H2] Hn.
  assert (L : lstrip (pre ++ t ++ post) = t ++ post).
  { clear Hpost. induction pre as [|c pre IH]; simpl in *.
    - destruct t as [|h t]; [contradiction|]. simpl in *. now rewrite H1.
    - apply andb_true_iff in Hpre as [Hc Hpre]. rewrite Hc. now apply IH. }
  unfold strip. rewrite L. unfold rstrip. rewrite rev_app_distr.
  assert (R : forall q, forallb is_space q = true -> lstrip (q ++ rev t) = rev t).
  { intros q Hq. induction q as [|c q IH]; simpl in *.
    - now apply lstrip_fix.
    - apply andb_true_iff in Hq as [Hc Hq]. rewrite Hc. now apply IH. }
  rewrite R; [apply rev_involutive|].
  rewrite forallb_forall in *. intros x Hx. apply Hpost. now apply in_rev.
Qed.

(** ** The result of the segmenter *)

Lemma add_unit_keys results u :
  map key (add_unit results u)
  = map key results ++ filter has_text [trimmed u].
Proof.
  destruct u as [[a b] body]. unfold add_unit, trimmed, has_text.
  cbn [filter snd non_empty].
  destruct (strip body) as [|c content]; cbn [non_empty].
  - now rewrite app_nil_r.
  - destruct (correct_text (c :: content)) as [[fixed log] q].
    now rewrite map_app.
Qed.

Lemma fold_add_unit_keys us :
  forall results,
    map key (fold_left add_unit us results)
    = map key results ++ filter has_text (map trimmed us).
Proof.
  induction us as [|u us IH]; intro results; cbn [fold_left map].
  - cbn [filter]. now rewrite app_nil_r.
  - rewrite IH, add_unit_keys. rewrite <- app_assoc. f_equal.
    cbn [filter]. destruct (has_text (trimmed u)); reflexivity.
Qed.

Lemma add_unit_ids results u :
  map seg_id results = seq 1 (length results) ->
  map seg_id (add_unit results u) = seq 1 (length (add_unit results u)).
Proof.
  intro H. destruct u as [[a b] body]. unfold add_unit.
  destruct (strip body) as [|c content]; [exact H|].
  destruct (correct_text (c :: content)) as [[fixed log] q].
  rewrite map_app, length_app, seq_app, H. cbn [map seg_id length seq Nat.add].
  f_equal. f_equal. lia.
Qed.

Lemma fold_add_unit_ids us :
  forall results,
    map seg_id results = seq 1 (length results) ->
    map seg_id (fold_left add_unit us results)
    = seq 1 (length (fold_left add_unit us results)).
Proof.
  induction us as [|u us IH]; intros results H; cbn [fold_left]; [exact H|].
  apply IH. now apply add_unit_ids.
Qed.

(** ** The units are the headers of the text *)

Lemma parse_header_ext u x a b r :
  parse_header u = Some (a, b, r) ->
  parse_header (u ++ x) = Some (a, b, r ++ x).
Proof.
  intro H. apply parse_header_inv in H as (Ca & Cb & ->).
  rewrite <- app_assoc. now apply parse_header_intro.
Qed.

Lemma parse_header_head s a b r :
  parse_header s = Some (a, b, r) -> exists s', s = chr "[" :: s'.
Proof.
  intro H. apply parse_header_inv in H as (_ & _ & ->).
  unfold header_text. simpl. eauto.
Qed.

Lemma parse_header_nil : parse_header [] = None.
Proof. reflexivity. Qed.

Lemma find_header_shorter s pre a b r :
  find_header s = Some (pre, a, b, r) -> (length r < length s)%nat.
Proof.
  intro H. apply find_header_inv in H as (_ & _ & -> & _).
  destruct (header_text_length a b) as [n Hn].
  rewrite !length_app, Hn. lia.
Qed.

Lemma units_after_fuels fuel :
  forall fuel' a b s,
    (length s <= fuel)%nat -> (length s <= fuel')%nat ->
    units_after fuel a b s = units_after fuel' a b s.
Proof.
  induction fuel as [|f IH]; intros fuel' a b s Hf Hf'.
  - destruct s; [|simpl in Hf; lia].
    destruct fuel'; reflexivity.
  - cbn [units_after].
    destruct (find_header s) as [[[[body a'] b'] r]|] eqn:F.
    + pose proof (find_header_shorter _ _ _ _ _ F) as Hr.
      destruct fuel' as [|f']; [lia|].
      cbn [units_after]. rewrite F. f_equal. apply IH; lia.
    + destruct fuel' as [|f']; cbn [units_after];
        [reflexivity|now rewrite F].
Qed.

Lemma units_after_fuel fuel a b s :
  (length s <= fuel)%nat ->
  units_after fuel a b s = units_after (length s) a b s.
Proof. intro H. apply units_after_fuels; [exact H|lia]. Qed.

Lemma units_after_tiles fuel :
  forall a b s,
    flat_map unit_text (units_after fuel a b s) = header_text a b ++ s.
Proof.
  induction fuel as [|f IH]; intros a b s; cbn [units_after].
  - cbn [flat_map unit_text]. now rewrite app_nil_r.
  - destruct (find_header s) as [[[[body a'] b'] r]|] eqn:F.
    + apply find_header_inv in F as (_ & _ & -> & _).
      cbn [flat_map unit_text]. rewrite IH. now rewrite <- app_assoc.
    + cbn [flat_map unit_text]. now rewrite app_nil_r.
Qed.

Lemma header_units_tiles text :
  text = preamble text ++ flat_map unit_text (header_units text).
Proof.
  unfold preamble, header_units.
  destruct (find_header text) as [[[[pre a] b] r]|] eqn:F.
  - rewrite units_after_tiles. now apply find_header_inv in F as (_ & _ & -> & _).
  - cbn [flat_map]. now rewrite app_nil_r.
Qed.

Lemma find_header_first s :
  forall pre a b r,
    find_header s = Some (pre, a, b, r) -> find_header pre = None.
Proof.
  induction s as [|c s IH]; intros pre a b r H; cbn [find_header] in H.
  - rewrite parse_header_nil in H. discriminate.
  - destruct (parse_header (c :: s)) as [[[a' b'] r']|] eqn:E.
    + injection H as <- <- <- <-. reflexivity.
    + destruct (find_header s) as [[[[pre' a'] b'] r']|] eqn:F; [|discriminate].
      injection H as <- <- <- <-.
      cbn [find_header]. rewrite (IH _ _ _ _ eq_refl).
      destruct (parse_header (c :: pre')) as [[[a1 b1] r1]|] eqn:E1;
        [|reflexivity].
      apply find_header_inv in F as (_ & _ & -> & _).
      apply (parse_header_ext _ (header_text a' b' ++ r')) in E1.
      rewrite <- app_comm_cons in E1. rewrite E in E1. discriminate.
Qed.

Lemma units_after_maximal fuel :
  forall a b s,
    (length s <= fuel)%nat ->
    Forall (fun u => find_header (snd u) = None) (units_after fuel a b s).
Proof.
  induction fuel as [|f IH]; intros a b s Hf; cbn [units_after].
  - destruct s; [|simpl in Hf; lia]. repeat constructor.
  - destruct (find_header s) as [[[[body a'] b'] r]|] eqn:F.
    + constructor; [exact (find_header_first _ _ _ _ _ F)|].
      apply IH. pose proof (find_header_shorter _ _ _ _ _ F). lia.
    + repeat constructor. exact F.
Qed.

Lemma header_units_maximal text :
  find_header (preamble text) = None /\
  Forall (fun u => find_header (snd u) = None) (header_units text).
Proof.
  unfold preamble, header_units.
  destruct (find_header text) as [[[[pre a] b] r]|] eqn:F.
  - split; [exact (find_header_first _ _ _ _ _ F)|].
    apply units_after_maximal.
    pose proof (find_header_shorter _ _ _ _ _ F). lia.
  - split; [exact F|constructor].
Qed.

Lemma find_header_hit s a b r :
  parse_header s = Some (a, b, r) -> find_header s = Some ([], a, b, r).
Proof. intro H. destruct s; cbn [find_header]; now rewrite H. Qed.

Lemma find_header_miss c s :
  parse_header (c :: s) = None ->
  find_header (c :: s)
  = match find_header s with
    | Some (pre, a, b, r) => Some (c :: pre, a, b, r)
    | None => None
    end.
Proof. intro H. cbn [find_header]. now rewrite H. Qed.

(** The text before the first header plays no part. *)
Lemma header_units_cut text :
  header_units (skipn (length (preamble text)) text) = header_units text.
Proof.
  unfold preamble, header_units at 2.
  destruct (find_header text) as [[[[pre a] b] r]|] eqn:F.
  - pose proof (find_header_shorter _ _ _ _ _ F) as Hr.
    apply find_header_inv in F as (Ca & Cb & -> & P).
    rewrite skipn_app_exact. unfold header_units.
    rewrite (find_header_hit _ _ _ _ P).
    rewrite (units_after_fuel (length (header_text a b ++ r))).
    + symmetry. apply units_after_fuel. lia.
    + rewrite length_app. lia.
  - rewrite skipn_all. reflexivity.
Qed.

Lemma fold_add_unit_originals us :
  forall results,
    Forall (fun r => original r <> []) results ->
    Forall (fun r => original r <> []) (fold_left add_unit us results).
Proof.
  induction us as [|[[a b] body] us IH]; intros results H; cbn [fold_left];
    [exact H|].
  apply IH. unfold add_unit.
  destruct (strip body) as [|c content]; [exact H|].
  destruct (correct_text (c :: content)) as [[fixed log] q].
  apply Forall_app. split; [exact H|]. repeat constructor. discriminate.
Qed.

(** ** Scores *)

Lemma count_nonneg (n : nat) : (0 <= inject_Z (Z.of_nat n))%Q.
Proof. unfold Qle; simpl. lia. Qed.

Lemma simple_quality_bounds (log : list pystr) :
  (3 # 10 <= simple_quality log /\ simple_quality log <= 1)%Q.
Proof.
  unfold simple_quality. split.
  - apply Q.min_glb; [discriminate|].
    pose proof (count_nonneg (length log)) as H.
    set (n := inject_Z (Z.of_nat (length log))) in *.
    unfold Qdiv. setoid_replace (/ 5)%Q with (1 # 5)%Q by reflexivity.
    lra.
  - apply Q.le_min_l.
Qed.

Lemma correct_text_quality (text : pystr) :
  snd (correct_text text) = simple_quality (snd (fst (correct_text text))).
Proof. unfold correct_text. destruct (rule_stages text); reflexivity. Qed.

Lemma clamp01_bounds (score : Q) : (0 <= clamp01 score <= 1)%Q.
Proof.
  unfold clamp01. split.
  - apply Q.min_glb; [apply Q.le_max_r|discriminate].
  - apply Q.le_min_r.
Qed.

(** C1. Both scorers return a value in the closed interval [0,1]: the
    lightweight scorer of [correct_text] for every input text, and
    [calculate_realistic_quality_score] for every original, corrected text
    and corrections list. *)
Theorem quality_score_in_unit_interval :
  (forall text : pystr,
      (0 <= snd (correct_text text) <= 1)%Q) /\
  (forall (original corrected : pystr) (corrections : list pystr),
      (0 <= calculate_realistic_quality_score original corrected corrections <= 1)%Q).
Proof.
  split.
  - intro text. rewrite correct_text_quality.
    destruct (simple_quality_bounds (snd (fst (correct_text text)))) as [H1 H2].
    split; [|exact H2]. eapply Qle_trans; [|exact H1]. discriminate.
  - intros. unfold calculate_realistic_quality_score. apply clamp01_bounds.
Qed.

(** C10. [correct_text] never scores below its base value 0.3, whatever
    the input and however few corrections were applied. *)
Theorem correct_text_quality_at_least_base (text : pystr) :
  (3 # 10 <= snd (correct_text text))%Q.
Proof.
  rewrite correct_text_quality. apply simple_quality_bounds.
Qed.

(** C6, as stated, fails: on "申しす ございす" two ending repairs are
    logged, both of the category 語尾修正; the code scores 0.7, the
    statement gives 0.5. *)
Lemma simple_score_counts_entries_not_categories :
  let '(_, log, q) := correct_text (str "申しす ございす") in
  log = [str "語尾修正: 申します"; str "語尾修正: ございます"] /\
  (q == 7 # 10)%Q /\ (simple_score log == 5 # 10)%Q /\
  ~ (q == simple_score log)%Q.
Proof.
  vm_compute. repeat split; intro H; discriminate H.
Qed.

Lemma fold_left_mapped {A B C : Type} (f : A -> C -> A) (g : B -> C)
  (l : list B) :
  forall a, fold_left f (map g l) a = fold_left (fun a x => f a (g x)) l a.
Proof. induction l as [|x l IH]; intro a; simpl; [reflexivity|apply IH]. Qed.

Lemma named_stage_rules name rules acc :
  named_stage name rules acc = fold_left rule_step (named_rules name rules) acc.
Proof.
  unfold named_stage, named_rules. now rewrite fold_left_mapped.
Qed.

Lemma tagged_stage_rules tag rules acc :
  tagged_stage tag rules acc = fold_left rule_step (tagged_rules tag rules) acc.
Proof.
  unfold tagged_stage, tagged_rules. now rewrite fold_left_mapped.
Qed.

Lemma rule_stages_rules text :
  rule_stages text = fold_left rule_step all_rules (text, []).
Proof.
  unfold rule_stages, all_rules.
  rewrite !fold_left_app.
  now rewrite !named_stage_rules, !tagged_stage_rules.
Qed.

(** The log grows by the entry of every rule whose pattern matches the
    text it meets, and by nothing else. *)
Lemma rule_steps_log rules :
  forall text log,
    snd (fold_left rule_step rules (text, log))
    = log ++ map (fun t => fst (fst t)) (filter matched (turns rules text)).
Proof.
  induction rules as [|[[entry pattern] replacement] rules IH]; intros text log.
  - cbn. now rewrite app_nil_r.
  - cbn [fold_left turns filter]. unfold rule_step at 2, apply_rule, matched.
    cbn [fst snd].
    destruct (found (re_search pattern text)).
    + rewrite IH. cbn [map fst]. now rewrite <- app_assoc.
    + apply IH.
Qed.

Lemma turns_length rules : forall text, length (turns rules text) = length rules.
Proof.
  induction rules as [|[[e p] r] rules IH]; intro text; cbn [turns length];
    [reflexivity|now rewrite IH].
Qed.

Lemma filter_length_le {A : Type} (f : A -> bool) (l : list A) :
  (length (filter f l) <= length l)%nat.
Proof.
  induction l as [|x l IH]; simpl; [lia|]. destruct (f x); simpl; lia.
Qed.

Lemma all_rules_count : length all_rules = 26%nat.
Proof. reflexivity. Qed.

Lemma hits_bound (text : pystr) :
  (length (filter matched (turns all_rules text)) <= 26)%nat.
Proof.
  pose proof (filter_length_le matched (turns all_rules text)) as H.
  rewrite turns_length in H. rewrite all_rules_count in H. exact H.
Qed.

Lemma rule_stages_log (text : pystr) :
  snd (rule_stages text)
  = map (fun t => fst (fst t)) (filter matched (turns all_rules text)).
Proof.
  rewrite rule_stages_rules, rule_steps_log. apply app_nil_l.
Qed.

(** C6, amended. Each of the 26 rules is tried once, in the order of the
    pipeline, on the text as the rules before it have left it; a rule
    whose pattern matches adds exactly one entry to the log (however many
    places it matches) and a rule whose pattern does not match adds none.
    The lightweight scorer returns min(1.0, n/5 + 0.3) for the number n of
    rules that matched: two rules of one category that both matched count
    twice. *)
Theorem simple_score_per_matched_rule (text : pystr) :
  let hits := filter matched (turns all_rules text) in
  let '(_, log, q) := correct_text text in
  log = map (fun t => fst (fst t)) hits /\
  q = Qmin 1 (inject_Z (Z.of_nat (length hits)) / 5 + (3 # 10)) /\
  (length hits <= 26)%nat.
Proof.
  cbv zeta. unfold correct_text.
  pose proof (rule_stages_log text) as L.
  destruct (rule_stages text) as [fixed log]. cbn [snd] in L.
  split; [exact L|]. split; [|apply hits_bound].
  unfold simple_quality. rewrite L, length_map. reflexivity.
Qed.

(** ** The example of the specification *)

(** C4, as stated, fails: the output for the example is not the stated
    text.  申しす is followed by ご, so its rule (which asks for whitespace
    or the end after it) does not match, and no rule adds a mark at the end
    of the text. *)
Lemma example_output_differs :
  ~ (write_output (process_segments example_input) = example_output /\
     Forall (fun r => ending_entries (corrections r) = 2%nat /\
                      punctuation_entries (corrections r) = 1%nat)
            (process_segments example_input)).
Proof.
  intros [H _]. vm_compute in H. discriminate H.
Qed.

(** C4, amended. For the example input the pipeline emits
    "[0:00:01 - 0:00:05]\n申しすございます\n\n"; the log of its one segment
    is the single ending repair "語尾修正: ございます", with no punctuation
    entry. *)
Theorem example_output_of_pipeline :
  write_output (process_segments example_input)
  = str "[0:00:01 - 0:00:05]" ++ [LF] ++ str "申しすございます" ++ [LF; LF] /\
  map corrections (process_segments example_input)
  = [[str "語尾修正: ございます"]] /\
  map (fun r => (ending_entries (corrections r), punctuation_entries (corrections r)))
      (process_segments example_input)
  = [(1%nat, 0%nat)].
Proof. vm_compute. repeat split. Qed.

(** ** The refined scorer *)

Lemma fold_weights (w : pystr -> Q) (cs : list pystr) :
  forall a : Q,
    (fold_left (fun score c => score + w c) cs a == a + sum_q (map w cs))%Q.
Proof.
  induction cs as [|c cs IH]; intro a; cbn [fold_left map sum_q fold_right].
  - lra.
  - rewrite IH. unfold sum_q. lra.
Qed.

Lemma clamp01_compat (x y : Q) : (x == y)%Q -> (clamp01 x == clamp01 y)%Q.
Proof.
  intro H. unfold clamp01.
  apply Q.min_compat; [|reflexivity]. apply Q.max_compat; [exact H|reflexivity].
Qed.


(** The stated ratio is undefined for an empty original; the code divides
    by [max(len(original), 1)] and scores the pair of empty texts 0.3. *)
Lemma refined_score_empty_original :
  refined_score [] [] [] = None /\
  (calculate_realistic_quality_score [] [] [] == 3 # 10)%Q.
Proof. vm_compute. split; reflexivity. Qed.

(** A tag listed twice adds its weight twice, and the detector of the
    auditor does list "technical_terms" once for every term it finds
    repaired. *)
Lemma refined_score_repeated_tag :
  let original := str "ベルトとジーピーティーは" in
  let corrected := str "BERTとGPTは" in
  detect_corrections_improved original corrected
  = [str "technical_terms"; str "technical_terms"] /\
  (calculate_realistic_quality_score original original
     [str "technical_terms"; str "technical_terms"] == 1)%Q /\
  (calculate_realistic_quality_score original original
     [str "technical_terms"] == 8 # 10)%Q.
Proof. vm_compute. repeat split; reflexivity. Qed.

(** Where the closing phrase stands in both texts the code subtracts 0.3
    all the same: its test for the truncated phrase is met by the whole
    phrase too.  The statement below leaves these texts out. *)
Lemma refined_score_kept_phrase :
  phrase_kept THANKS THANKS = true /\
  phrase_truncated THANKS THANKS = false /\
  (calculate_realistic_quality_score THANKS THANKS [] == 3 # 10)%Q /\
  (written_score THANKS THANKS [] == 6 # 10)%Q.
Proof. vm_compute. repeat split; reflexivity. Qed.








(** ** Empty input *)

(** The guarded statistics of the batch processor: all zero for no
    results and a fresh corrector. *)
Lemma save_batch_stats_empty (client : option (pystr -> reply)) :
  save_batch_stats (new_corrector client) []
  = Some (BatchStats 0 0 0%Q 0 (0 * 150)%Q 0 0).
Proof. reflexivity. Qed.

(** C8: the code breaks the claim on the empty transcript.  No segment is
    extractable from it, and [calculate_overall_metrics] divides by
    [len(original)], which is 0: [ZeroDivisionError] instead of metrics.
    The average printed by [main] of [final_system.py] divides by the
    number of segments in the same way. *)
Theorem overall_metrics_of_empty_input :
  process_segments [] = [] /\
  extract_segments_improved [] = [] /\
  calculate_overall_metrics [] [] = None /\
  report_average (process_segments []) = None.
Proof. vm_compute. repeat split. Qed.

(** ** LLM escalation *)

(** When the gate does not fire, or the call yields nothing usable, the
    rule stage's result is returned unchanged. *)
Lemma enhanced_fallback (self : corrector) (text : pystr) :
  (needs_llm_correction (fst (fst (correct_text text))) = false \/
   snd (call_nova_micro self
          (create_correction_prompt (fst (fst (correct_text text))))) = None \/
   snd (call_nova_micro self
          (create_correction_prompt (fst (fst (correct_text text))))) = Some [] \/
   snd (call_nova_micro self
          (create_correction_prompt (fst (fst (correct_text text)))))
   = Some (fst (fst (correct_text text)))) ->
  snd (enhanced_correct_text self text) = correct_text text.
Proof.
  unfold enhanced_correct_text.
  destruct (correct_text text) as [[fixed log] q]. cbn [fst snd app].
  destruct (needs_llm_correction fixed); [|reflexivity].
  destruct (call_nova_micro self (create_correction_prompt fixed)) as [self' res].
  cbn [snd].
  intros [H|[H|[H|H]]]; try discriminate; subst; try reflexivity.
  destruct fixed as [|c r]; [reflexivity|].
  assert (E : str_eqb (c :: r) (c :: r) = true) by now apply str_eqb_eq.
  rewrite E. reflexivity.
Qed.

(** An unavailable client and a failing call both yield nothing. *)
Lemma call_without_service (self : corrector) (prompt : pystr) :
  (bedrock_client self = None \/
   exists invoke, bedrock_client self = Some invoke /\ invoke prompt = Raises) ->
  call_nova_micro self prompt = (self, None).
Proof.
  unfold call_nova_micro. intros [H|(invoke & H & R)]; rewrite H; [reflexivity|].
  now rewrite R.
Qed.

(** When the gate fires and the service returns a different, non-empty
    text: that text, the log with one more entry, the raised score. *)
Lemma enhanced_success (self : corrector) (text answer : pystr) :
  needs_llm_correction (fst (fst (correct_text text))) = true ->
  snd (call_nova_micro self
         (create_correction_prompt (fst (fst (correct_text text))))) = Some answer ->
  answer <> [] -> answer <> fst (fst (correct_text text)) ->
  snd (enhanced_correct_text self text)
  = (answer, snd (fst (correct_text text)) ++ [LLM_CONTEXT],
     Qmin 1 (snd (correct_text text) + (3 # 10))%Q).
Proof.
  unfold enhanced_correct_text.
  destruct (correct_text text) as [[fixed log] q]. cbn [fst snd app].
  intros -> H Hn Hd.
  destruct (call_nova_micro self (create_correction_prompt fixed)) as [self' res].
  cbn [snd] in H. subst res.
  destruct answer as [|c r]; [contradiction|].
  destruct (str_eqb (c :: r) fixed) eqn:E.
  - apply str_eqb_eq in E. contradiction.
  - reflexivity.
Qed.

(** C2: the code breaks the claim on the unit "エルエム エポック" with no
    service.  The rule stage gives "LLM エポック" and logs "専門用語: LLM";
    the gate fires on エポック, the call yields nothing and the rule result
    is kept, as the claim says.  But [llm_used] is computed as "some log
    entry contains LLM", which the rule stage's own entry does: the unit is
    reported with [llm_used] true although no LLM text was used. *)
Theorem llm_used_set_without_llm :
  let text := str "エルエム エポック" in
  needs_llm_correction (fst (fst (correct_text text))) = true /\
  snd (enhanced_correct_text (new_corrector None) text)
  = (str "LLM エポック", [str "専門用語: LLM"], snd (correct_text text)) /\
  map (fun r => (n_corrected r, n_corrections r, llm_used r))
      (snd (process_segments_enhanced
              (new_corrector None)
              (str "[0:00:01 - 0:00:05] エルエム エポック")))
  = [(str "LLM エポック", [str "専門用語: LLM"], true)].
Proof. vm_compute. repeat split. Qed.

(** ** The segmenter *)

Lemma all_space_app (a b : pystr) :
  all_space (a ++ b) = all_space a && all_space b.
Proof. apply forallb_app. Qed.

Lemma all_space_rev (a : pystr) : all_space (rev a) = all_space a.
Proof.
  induction a as [|c a IH]; [reflexivity|].
  cbn [rev]. rewrite all_space_app, IH. cbn [all_space forallb].
  rewrite andb_true_r. apply andb_comm.
Qed.

(** [lstrip] takes whitespace off the front and nothing else. *)
Lemma lstrip_split (s : pystr) :
  exists pre, s = pre ++ lstrip s /\ all_space pre = true.
Proof.
  induction s as [|c s (pre & E & A)]; [now exists []|].
  cbn [lstrip]. destruct (is_space c) eqn:S.
  - exists (c :: pre). split; [now rewrite E at 1|].
    cbn [all_space forallb]. now rewrite S.
  - now exists [].
Qed.

(** [rstrip] takes whitespace off the back and nothing else. *)
Lemma rstrip_split (s : pystr) :
  exists post, s = rstrip s ++ post /\ all_space post = true.
Proof.
  destruct (lstrip_split (rev s)) as (pre & E & A).
  exists (rev pre). split; [|now rewrite all_space_rev].
  unfold rstrip. rewrite <- rev_app_distr, <- E. now rewrite rev_involutive.
Qed.

(** [strip] returns the text between the whitespace at the two ends. *)
Lemma strip_spec (s : pystr) : is_trim_of (strip s) s.
Proof.
  destruct (lstrip_split s) as (pre & E & A).
  destruct (rstrip_split (lstrip s)) as (post & E' & A').
  exists pre, post. repeat split; auto; try apply strip_ok.
  unfold strip. now rewrite <- E'.
Qed.

Lemma has_ink_app (a b : pystr) : has_ink (a ++ b) = has_ink a || has_ink b.
Proof. apply existsb_app. Qed.

Lemma all_space_no_ink (a : pystr) : all_space a = true -> has_ink a = false.
Proof.
  induction a as [|c a IH]; [reflexivity|].
  cbn [all_space forallb has_ink existsb]. intro H.
  apply andb_true_iff in H as [H1 H2]. rewrite H1. cbn. now apply IH.
Qed.

Lemma no_ink_all_space (a : pystr) : has_ink a = false -> all_space a = true.
Proof.
  induction a as [|c a IH]; [reflexivity|].
  cbn [all_space forallb has_ink existsb]. intro H.
  apply orb_false_iff in H as [H1 H2].
  apply negb_false_iff in H1. rewrite H1. cbn. now apply IH.
Qed.

(** The trimmed text is empty exactly when the text is whitespace only. *)
Lemma trim_ink (t body : pystr) :
  is_trim_of t body -> has_ink body = non_empty t.
Proof.
  intros (pre & post & -> & A & A' & T1 & T2).
  rewrite !has_ink_app, (all_space_no_ink _ A), (all_space_no_ink _ A').
  rewrite orb_false_r. cbn [orb].
  destruct t as [|c t]; [reflexivity|].
  cbn [space_led] in T1. cbn [has_ink existsb non_empty]. now rewrite T1.
Qed.

Lemma strip_ink (s : pystr) : has_ink s = non_empty (strip s).
Proof. apply trim_ink, strip_spec. Qed.

Lemma fold_add_unit_inked us :
  forall results,
    Forall (fun r => original r <> [] /\ has_ink (original r) = true) results ->
    Forall (fun r => original r <> [] /\ has_ink (original r) = true)
           (fold_left add_unit us results).
Proof.
  induction us as [|[[a b] body] us IH]; intros results H; cbn [fold_left];
    [exact H|].
  apply IH. unfold add_unit.
  pose proof (strip_ok body) as T. pose proof (strip_fix _ T) as F.
  destruct (strip body) as [|c content] eqn:E; [exact H|].
  destruct (correct_text (c :: content)) as [[fixed log] q].
  apply Forall_app. split; [exact H|]. constructor; [|constructor].
  cbn [original]. split; [discriminate|].
  rewrite strip_ink, F. reflexivity.
Qed.

Lemma fold_add_unit_of_units us :
  forall results kept,
    Forall2 segment_of_unit results kept ->
    Forall2 segment_of_unit (fold_left add_unit us results)
            (kept ++ filter inked us).
Proof.
  induction us as [|[[a b] body] us IH]; intros results kept H;
    cbn [fold_left filter].
  - now rewrite app_nil_r.
  - unfold inked at 1. cbn [snd]. rewrite strip_ink.
    pose proof (strip_spec body) as T.
    unfold add_unit.
    destruct (strip body) as [|c content] eqn:E; cbn [non_empty].
    + now apply IH.
    + destruct (correct_text (c :: content)) as [[fixed log] q].
      replace (kept ++ (a, b, body) :: filter inked us)
        with ((kept ++ [(a, b, body)]) ++ filter inked us)
        by (now rewrite <- app_assoc).
      apply IH. apply Forall2_app; [exact H|].
      constructor; [|constructor].
      unfold segment_of_unit. cbn. auto.
Qed.

(** A text without header, in words: no "[a - b]" with clock times [a],
    [b] stands in it. *)
Lemma holds_header_found s : holds_header s -> find_header s <> None.
Proof.
  intros (pre & a & b & r & Ca & Cb & ->).
  induction pre as [|c pre IH].
  - cbn [app]. rewrite (find_header_hit _ a b r) by now apply parse_header_intro.
    discriminate.
  - rewrite <- app_comm_cons. cbn [find_header].
    destruct (parse_header _) as [[[a' b'] r']|]; [discriminate|].
    destruct (find_header (pre ++ header_text a b ++ r)) as [[[[x a'] b'] r']|];
      [discriminate|contradiction].
Qed.

Lemma find_header_none_iff s : find_header s = None <-> ~ holds_header s.
Proof.
  split.
  - intros F H. now apply holds_header_found in H.
  - intro H. destruct (find_header s) as [[[[pre a] b] r]|] eqn:F;
      [|reflexivity].
    apply find_header_inv in F as (Ca & Cb & E & _).
    exfalso. apply H. now exists pre, a, b, r.
Qed.

Lemma header_units_plain text :
  ~ holds_header (preamble text) /\
  Forall (fun u => ~ holds_header (snd u)) (header_units text).
Proof.
  destruct (header_units_maximal text) as [P U]. split.
  - now apply find_header_none_iff.
  - eapply Forall_impl; [|exact U]. intros u H. now apply find_header_none_iff.
Qed.

(** C5. For every input text the segments follow the timestamp headers of
    the text from left to right: [re.split] returns the text before the
    first header and then the units (each header with the text after it),
    which tile the input in that order; every header holds two clock times
    and no header is left inside the first text or inside the text of a
    unit.  The result holds one segment for every unit
    that has a character other than whitespace, and none for the others:
    in the order of the units, with the times of the unit's header, with
    the unit's text without the whitespace at its two ends, and with ids 1,
    2, ..., n.  No segment has empty text, and cutting off the text before
    the first header does not change the result. *)
Theorem process_segments_order_and_ids (text : pystr) :
  let results := process_segments text in
  let units := header_units text in
  re_split HEADER text = preamble text :: flat_units units /\
  text = preamble text ++ flat_map unit_text units /\
  find_header (preamble text) = None /\
  Forall (fun u => find_header (snd u) = None) units /\
  Forall clocked units /\
  ~ holds_header (preamble text) /\
  Forall (fun u => ~ holds_header (snd u)) units /\
  Forall2 segment_of_unit results (filter inked units) /\
  map key results = filter has_text (map trimmed units) /\
  map seg_id results = seq 1 (length results) /\
  Forall (fun r => original r <> [] /\ has_ink (original r) = true) results /\
  process_segments (skipn (length (preamble text)) text) = results.
Proof.
  cbv zeta. rewrite !process_segments_units.
  repeat split.
  - apply re_split_HEADER.
  - apply header_units_tiles.
  - apply header_units_maximal.
  - apply header_units_maximal.
  - apply header_units_clocked.
  - apply header_units_plain.
  - apply header_units_plain.
  - apply (fold_add_unit_of_units (header_units text) [] []). constructor.
  - now rewrite fold_add_unit_keys.
  - now apply fold_add_unit_ids.
  - apply fold_add_unit_inked. constructor.
  - now rewrite header_units_cut.
Qed.

(** ** Writing the segments and segmenting again *)

Lemma write_segment_eq a b c :
  write_segment a b c = header_text a b ++ LF :: c ++ [LF; LF].
Proof. unfold write_segment, header_text. now rewrite <- !app_assoc. Qed.

Lemma digit_run_chars d : digit_run d -> Forall (fun c => header_char c = true) d.
Proof.
  intros [_ H]. rewrite forallb_forall in H. apply Forall_forall.
  intros c Hc. unfold header_char. now rewrite (H c Hc).
Qed.

Lemma clock_chars a : is_clock a -> Forall (fun c => header_char c = true) a.
Proof.
  intros (h & m & sec & Dh & Dm & Ds & ->).
  repeat (apply Forall_app; split); auto using digit_run_chars;
    repeat constructor.
Qed.

Lemma header_chars a b :
  is_clock a -> is_clock b ->
  Forall (fun c => header_char c = true) (header_text a b).
Proof.
  intros Ca Cb. unfold header_text.
  repeat (apply Forall_app; split); auto using clock_chars;
    repeat constructor.
Qed.

Lemma header_no_LF a b : is_clock a -> is_clock b -> ~ In LF (header_text a b).
Proof.
  intros Ca Cb H. pose proof (header_chars a b Ca Cb) as F.
  rewrite Forall_forall in F. specialize (F _ H). discriminate F.
Qed.

(** A text without [x] that starts a string is a prefix of any text that
    is followed by [x] in that string. *)
Lemma prefix_before (x : codepoint) (h u r t : pystr) :
  ~ In x h -> h ++ r = u ++ x :: t -> exists r', u = h ++ r'.
Proof.
  revert u. induction h as [|c h IH]; intros u Hn E.
  - now exists u.
  - destruct u as [|d u].
    + simpl in E. injection E as -> _. exfalso. apply Hn. now left.
    + simpl in E. injection E as -> E.
      destruct (IH u) as [r' ->]; [|exact E|now exists r'].
      intro Hin. apply Hn. now right.
Qed.

(** A header read from a text that goes on with a line feed lies within
    the text before the line feed. *)
Lemma parse_header_local u t a b r :
  parse_header (u ++ LF :: t) = Some (a, b, r) ->
  exists r', parse_header u = Some (a, b, r').
Proof.
  intro H. apply parse_header_inv in H as (Ca & Cb & E).
  destruct (prefix_before LF (header_text a b) u r t) as [r' ->].
  - now apply header_no_LF.
  - now symmetry.
  - exists r'. now apply parse_header_intro.
Qed.

Lemma parse_header_LF t : parse_header (LF :: t) = None.
Proof.
  destruct (parse_header (LF :: t)) as [[[a b] r]|] eqn:E; [|reflexivity].
  apply parse_header_head in E as [s' E]. discriminate E.
Qed.

Lemma find_header_none_inv c s :
  find_header (c :: s) = None ->
  parse_header (c :: s) = None /\ find_header s = None.
Proof.
  cbn [find_header].
  destruct (parse_header (c :: s)) as [[[a b] r]|]; [discriminate|].
  destruct (find_header s) as [[[[pre a] b] r]|]; [discriminate|]. auto.
Qed.

Lemma shift_shift p q o : shift p (shift q o) = shift (p ++ q) o.
Proof. destruct o as [[[[x a] b] r]|]; simpl; [now rewrite app_assoc|reflexivity]. Qed.

Lemma find_header_LF t : find_header (LF :: t) = shift [LF] (find_header t).
Proof.
  rewrite find_header_miss by apply parse_header_LF.
  destruct (find_header t) as [[[[x a] b] r]|]; reflexivity.
Qed.

Lemma find_header_clean c :
  forall t,
    find_header c = None ->
    find_header (c ++ LF :: t) = shift c (find_header (LF :: t)).
Proof.
  induction c as [|x c IH]; intros t H.
  - change ([] ++ LF :: t) with (LF :: t).
    destruct (find_header (LF :: t)) as [[[[p a] b] r]|]; reflexivity.
  - apply find_header_none_inv in H as [P F].
    rewrite <- app_comm_cons. rewrite find_header_miss.
    + rewrite (IH t F).
      destruct (find_header (LF :: t)) as [[[[p a] b] r]|]; reflexivity.
    + destruct (parse_header (x :: c ++ LF :: t)) as [[[a b] r]|] eqn:E;
        [|reflexivity].
      rewrite app_comm_cons in E.
      apply parse_header_local in E as [r' E]. rewrite P in E. discriminate E.
Qed.

(** Between two written headers no header is found. *)
Lemma find_header_gap c t :
  find_header c = None ->
  find_header (LF :: c ++ [LF; LF] ++ t)
  = shift (LF :: c ++ [LF; LF]) (find_header t).
Proof.
  intro H. rewrite find_header_LF.
  change ([LF; LF] ++ t) with (LF :: LF :: t).
  rewrite (find_header_clean c (LF :: t) H).
  rewrite !find_header_LF, !shift_shift.
  f_equal. simpl. now rewrite <- app_assoc.
Qed.

Lemma find_header_nil : find_header [] = None.
Proof. reflexivity. Qed.

Lemma find_header_gap_end c :
  find_header c = None -> find_header (LF :: c ++ [LF; LF]) = None.
Proof.
  intro H. pose proof (find_header_gap c [] H) as G.
  rewrite find_header_nil, app_nil_r in G. exact G.
Qed.

Lemma correct_text_trimmed text : trim_ok (fst (fst (correct_text text))).
Proof.
  unfold correct_text. destruct (rule_stages text) as [fixed log].
  cbn [fst]. unfold cleanup. apply strip_ok.
Qed.

Lemma fold_add_unit_well_formed us :
  forall results,
    Forall clocked us -> Forall well_formed results ->
    Forall well_formed (fold_left add_unit us results).
Proof.
  induction us as [|[[a b] body] us IH]; intros results Hc H; cbn [fold_left];
    [exact H|].
  inversion Hc as [|u us' Hu Hc']; subst. destruct Hu as [Ca Cb].
  apply IH; [exact Hc'|]. unfold add_unit.
  destruct (strip body) as [|c content]; [exact H|].
  pose proof (correct_text_trimmed (c :: content)) as T.
  destruct (correct_text (c :: content)) as [[fixed log] q].
  apply Forall_app. split; [exact H|].
  constructor; [|constructor]. unfold well_formed. cbn. auto.
Qed.

Lemma process_segments_well_formed text :
  Forall well_formed (process_segments text).
Proof.
  rewrite process_segments_units.
  apply fold_add_unit_well_formed; [apply header_units_clocked|constructor].
Qed.

Lemma header_free_none c : header_free c = true -> find_header c = None.
Proof.
  unfold header_free, re_search. rewrite search_from_HEADER.
  destruct (find_header c) as [[[[pre a] b] r]|]; [discriminate|reflexivity].
Qed.

Lemma write_output_cons r rs :
  write_output (r :: rs)
  = header_text (start_time r) (end_time r)
    ++ LF :: corrected r ++ [LF; LF] ++ write_output rs.
Proof.
  unfold write_output. cbn [flat_map]. rewrite write_segment_eq.
  rewrite <- app_assoc. f_equal. rewrite <- app_comm_cons. f_equal.
  now rewrite <- app_assoc.
Qed.

Lemma find_header_written rs :
  Forall well_formed rs ->
  find_header (write_output rs)
  = match rs with
    | [] => None
    | r :: rs' =>
        Some ([], start_time r, end_time r,
              LF :: corrected r ++ [LF; LF] ++ write_output rs')
    end.
Proof.
  intro H. destruct rs as [|r rs']; [reflexivity|].
  inversion H as [|x xs (Ca & Cb & _) _]; subst.
  rewrite write_output_cons. apply find_header_hit.
  now apply parse_header_intro.
Qed.

Lemma units_after_written rs :
  forall fuel a b c,
    Forall well_formed rs ->
    Forall (fun r => find_header (corrected r) = None) rs ->
    find_header c = None ->
    (length rs <= fuel)%nat ->
    units_after fuel a b (LF :: c ++ [LF; LF] ++ write_output rs)
    = (a, b, LF :: c ++ [LF; LF]) :: map written_unit rs.
Proof.
  induction rs as [|r rs IH]; intros fuel a b c Hw Hh Hc Hf.
  - cbn [write_output flat_map map]. rewrite app_nil_r.
    destruct fuel as [|f]; [reflexivity|]. cbn [units_after].
    now rewrite (find_header_gap_end c Hc).
  - destruct fuel as [|f]; [simpl in Hf; lia|]. cbn [units_after].
    rewrite (find_header_gap c _ Hc).
    rewrite (find_header_written (r :: rs) Hw). cbn [shift].
    rewrite app_nil_r.
    inversion Hw as [|x xs Hr Hw']; subst.
    inversion Hh as [|y ys Hcr Hh']; subst.
    cbn [map]. f_equal.
    apply IH; auto. simpl in Hf. lia.
Qed.

Lemma write_output_length rs : (length rs <= length (write_output rs))%nat.
Proof.
  induction rs as [|r rs IH]; [simpl; lia|].
  rewrite write_output_cons, !length_app. cbn [length].
  rewrite !length_app. cbn [length]. lia.
Qed.

Lemma header_units_written rs :
  Forall well_formed rs ->
  Forall (fun r => find_header (corrected r) = None) rs ->
  header_units (write_output rs) = map written_unit rs.
Proof.
  intros Hw Hh. unfold header_units. rewrite (find_header_written rs Hw).
  destruct rs as [|r rs]; [reflexivity|].
  inversion Hw as [|x xs Hr Hw']; subst.
  inversion Hh as [|y ys Hcr Hh']; subst.
  rewrite units_after_written; auto.
  pose proof (write_output_length (r :: rs)). simpl in *. lia.
Qed.

Lemma LF_is_space : is_space LF = true.
Proof. reflexivity. Qed.

Lemma trimmed_written r :
  trim_ok (corrected r) -> corrected r <> [] ->
  filter has_text [trimmed (written_unit r)] = [written r].
Proof.
  intros T N. unfold written_unit, trimmed, written, has_text.
  change (LF :: corrected r ++ [LF; LF])
    with ([LF] ++ corrected r ++ [LF; LF]).
  rewrite strip_padded; auto.
  cbn [filter snd]. destruct (corrected r); [contradiction|reflexivity].
Qed.

(** Segments that are well formed, not empty and free of headers are read
    back as they were written. *)
Lemma reread_segments rs :
  Forall well_formed rs ->
  forallb rereadable rs = true ->
  reread rs = map written rs.
Proof.
  intros Hw Hr. unfold reread.
  rewrite process_segments_units, fold_add_unit_keys. cbn [map app].
  rewrite header_units_written; [| exact Hw |].
  - induction rs as [|r rs IH]; [reflexivity|].
    inversion Hw as [|x xs (Ca & Cb & T) Hw']; subst.
    cbn [forallb] in Hr. apply andb_true_iff in Hr as [R Hr].
    unfold rereadable in R. apply andb_true_iff in R as [N F].
    cbn [map].
    change (trimmed (written_unit r) :: map trimmed (map written_unit rs))
      with ([trimmed (written_unit r)] ++ map trimmed (map written_unit rs)).
    rewrite filter_app, trimmed_written; auto.
    + cbn [app]. f_equal. now apply IH.
    + destruct (corrected r); [discriminate|discriminate].
  - rewrite forallb_forall in Hr. apply Forall_forall. intros r Hin.
    specialize (Hr r Hin). unfold rereadable in Hr.
    apply andb_true_iff in Hr as [_ F]. now apply header_free_none.
Qed.

(** C9, as stated, fails: the segment "えー" is corrected to the empty
    text; written out and segmented again it is no unit at all. *)
Lemma reread_loses_empty_segment :
  map written (process_segments (str "[0:00:01 - 0:00:05] えー"))
  = [(str "0:00:01", str "0:00:05", [])] /\
  reread (process_segments (str "[0:00:01 - 0:00:05] えー")) = [] /\
  reread (process_segments (str "[0:00:01 - 0:00:05] えー"))
  <> map written (process_segments (str "[0:00:01 - 0:00:05] えー")).
Proof. vm_compute. repeat split. intro H. discriminate H. Qed.

(** The condition on headers is needed as well: removing a filler can
    complete a header inside the corrected text, and the text is then cut
    there when segmented again. *)
Lemma reread_splits_at_new_header :
  let text := str "[0:00:01 - 0:00:05] a [0:00:02 -あ0:00:03] b" in
  map written (process_segments text)
  = [(str "0:00:01", str "0:00:05", str "a [0:00:02 - 0:00:03] b")] /\
  reread (process_segments text)
  = [(str "0:00:01", str "0:00:05", str "a");
     (str "0:00:02", str "0:00:03", str "b")].
Proof. vm_compute. split; reflexivity. Qed.

(** C9, amended. For every segment list produced by the pipeline in which
    every corrected text is non-empty and contains no timestamp header,
    writing each segment as "[start - end]", the corrected text and a blank
    line, and segmenting the concatenation again, yields the same sequence
    of (start_time, end_time, text) tuples. *)
Theorem reread_written (text : pystr) :
  forallb rereadable (process_segments text) = true ->
  reread (process_segments text) = map written (process_segments text).
Proof.
  intro H. apply reread_segments; [apply process_segments_well_formed|exact H].
Qed.

Lemma reread_written_witness :
  forallb rereadable (process_segments example_input) = true /\
  reread (process_segments example_input)
  = map written (process_segments example_input).
Proof.
  assert (H : forallb rereadable (process_segments example_input) = true)
    by (vm_compute; reflexivity).
  split; [exact H|]. exact (reread_written example_input H).
Defined.

(** ** The auditor's extractor on written output *)

Lemma split_on_line x :
  forall t, ~ In LF x -> split_on LF (x ++ LF :: t) = x :: split_on LF t.
Proof.
  induction x as [|c x IH]; intros t H.
  - cbn [app split_on]. now rewrite N.eqb_refl.
  - rewrite <- app_comm_cons. cbn [split_on].
    destruct (c =? LF) eqn:E.
    + apply N.eqb_eq in E. subst c. exfalso. apply H. now left.
    + rewrite IH; [reflexivity|]. intro Hin. apply H. now right.
Qed.

Lemma one_line_spec c : one_line c = true -> ~ In LF c.
Proof.
  unfold one_line. intros H Hin.
  apply negb_true_iff in H.
  assert (E : existsb (N.eqb LF) c = true).
  { apply existsb_exists. exists LF. split; [exact Hin|apply N.eqb_refl]. }
  rewrite E in H. discriminate H.
Qed.

Lemma split_on_written rs :
  Forall well_formed rs ->
  Forall (fun r => one_line (corrected r) = true) rs ->
  split_on LF (write_output rs) = output_lines rs.
Proof.
  intros Hw Ho. induction rs as [|r rs IH]; [reflexivity|].
  inversion Hw as [|x xs (Ca & Cb & T) Hw']; subst.
  inversion Ho as [|y ys O Ho']; subst.
  rewrite write_output_cons.
  rewrite split_on_line by now apply header_no_LF.
  change ([LF; LF] ++ write_output rs) with (LF :: [] ++ LF :: write_output rs).
  rewrite split_on_line by now apply one_line_spec.
  rewrite split_on_line by (intros []).
  now rewrite IH.
Qed.

Lemma found_HEADER_LINE s :
  found (re_match HEADER_LINE s)
  = match parse_header s with
    | Some _ => true
    | None => false
    end.
Proof.
  unfold re_match. rewrite rmatch_scan; [|reflexivity|discriminate].
  cbn [rest start]. rewrite scan_HEADER_LINE_eq.
  destruct (parse_header s) as [[[a b] r]|]; reflexivity.
Qed.

Lemma header_trim_ok a b : trim_ok (header_text a b).
Proof.
  unfold trim_ok, header_text. split; [reflexivity|].
  rewrite !rev_app_distr. reflexivity.
Qed.

Lemma extract_step_header st n a b :
  is_clock a -> is_clock b ->
  extract_step st (n, header_text a b)
  = (gathered st, RawSegment (header_text a b) [] n).
Proof.
  intros Ca Cb. destruct st as [segments cur]. unfold extract_step, gathered.
  rewrite (strip_fix _ (header_trim_ok a b)).
  rewrite found_HEADER_LINE.
  rewrite <- (app_nil_r (header_text a b)) at 1.
  rewrite parse_header_intro by assumption. cbn [fst snd].
  destruct (non_empty (content cur)); [reflexivity|now rewrite app_nil_r].
Qed.

Lemma extract_step_text segments cur n c :
  trim_ok c -> c <> [] -> parse_header c = None ->
  extract_step (segments, cur) (n, c)
  = (segments,
     RawSegment (timestamp cur) (content cur ++ c ++ str " ") (line_number cur)).
Proof.
  intros T N P. unfold extract_step.
  rewrite (strip_fix _ T), found_HEADER_LINE, P.
  destruct c; [contradiction|reflexivity].
Qed.

Lemma extract_step_blank st n : extract_step st (n, []) = st.
Proof. destruct st as [segments cur]. reflexivity. Qed.

Lemma find_header_none_parse c : find_header c = None -> parse_header c = None.
Proof.
  destruct c as [|x c]; [intros _; apply parse_header_nil|].
  intro H. now apply find_header_none_inv in H.
Qed.

Lemma raw_unit_written a b c n :
  trim_ok c -> c <> [] ->
  raw_unit (RawSegment (header_text a b) ([] ++ c ++ str " ") n)
  = (header_text a b, c).
Proof.
  intros T N. unfold raw_unit. cbn [timestamp content]. f_equal.
  apply (strip_padded [] (str " ") c); auto.
Qed.

Lemma extract_segments_gathered text :
  extract_segments_improved text
  = gathered (fold_left extract_step (enumerate (split_on LF text))
                        ([], RawSegment [] [] 0)).
Proof.
  unfold extract_segments_improved, gathered.
  destruct (fold_left _ _ _) as [segments cur]. cbn [fst snd].
  destruct (non_empty (content cur)); [reflexivity|now rewrite app_nil_r].
Qed.

Lemma segmenter_units_written rs :
  Forall well_formed rs ->
  forallb rereadable rs = true ->
  segmenter_units (write_output rs) = map shown rs.
Proof.
  intros Hw Hr. pose proof (reread_segments rs Hw Hr) as R.
  unfold reread in R. unfold segmenter_units.
  transitivity
    (map (fun k : pystr * pystr * pystr =>
            (header_text (fst (fst k)) (snd (fst k)), snd k))
         (map key (process_segments (write_output rs)))).
  - rewrite map_map. reflexivity.
  - rewrite R, map_map. reflexivity.
Qed.

(** C7, as stated, fails: with the text on the header's line, as in the
    example of the specification, the segmenter yields one unit and the
    extractor none (it takes the whole line for a header and drops it). *)
Lemma extractor_differs_from_segmenter :
  extractor_units example_input = [] /\
  segmenter_units example_input
  = [(str "[0:00:01 - 0:00:05]", str "申しすございす")] /\
  extractor_units example_input <> segmenter_units example_input.
Proof. vm_compute. repeat split. intro H. discriminate H. Qed.

(** ** The auditor's extractor and the segmenter on a laid-out transcript *)

Lemma kind_header l a b :
  kind_of l = Header a b ->
  strip l = header_text a b /\ is_clock a /\ is_clock b.
Proof.
  unfold kind_of.
  destruct (parse_header (strip l)) as [[[a' b'] r]|] eqn:P.
  - destruct r; [|discriminate]. intro H; injection H as <- <-.
    apply parse_header_inv in P as (Ca & Cb & E).
    rewrite app_nil_r in E. auto.
  - destruct (header_free l); [|discriminate].
    destruct (strip l); discriminate.
Qed.

Lemma kind_text l t :
  kind_of l = Text t ->
  strip l = t /\ t <> [] /\ parse_header t = None /\ find_header l = None.
Proof.
  unfold kind_of.
  destruct (parse_header (strip l)) as [[[a' b'] r]|] eqn:P.
  - destruct r; discriminate.
  - destruct (header_free l) eqn:F; [|discriminate].
    destruct (strip l) as [|c u] eqn:E; [discriminate|].
    intro H; injection H as <-.
    repeat split; auto; [discriminate|now apply header_free_none].
Qed.

Lemma kind_blank l :
  kind_of l = Blank -> strip l = [] /\ all_space l = true.
Proof.
  unfold kind_of.
  destruct (parse_header (strip l)) as [[[a' b'] r]|] eqn:P.
  - destruct r; discriminate.
  - destruct (header_free l); [|discriminate].
    destruct (strip l) as [|c u] eqn:E; [|discriminate].
    intros _. split; [reflexivity|].
    apply no_ink_all_space. now rewrite strip_ink, E.
Qed.

Lemma space_not_bracket c : is_space c = true -> c <> chr "[".
Proof. intros H ->. discriminate H. Qed.

Lemma parse_header_space c s : is_space c = true -> parse_header (c :: s) = None.
Proof.
  intro H. destruct (parse_header (c :: s)) as [[[a b] r]|] eqn:E;
    [|reflexivity].
  apply parse_header_head in E as [s' E]. injection E as -> _.
  discriminate H.
Qed.

Lemma find_header_spaces pre :
  forall s, all_space pre = true ->
            find_header (pre ++ s) = shift pre (find_header s).
Proof.
  induction pre as [|c pre IH]; intros s H.
  - cbn [app]. destruct (find_header s) as [[[[p a] b] r]|]; reflexivity.
  - cbn [all_space forallb] in H. apply andb_true_iff in H as [Hc H].
    rewrite <- app_comm_cons.
    rewrite find_header_miss by now apply parse_header_space.
    rewrite (IH s H).
    destruct (find_header s) as [[[[p a] b] r]|]; reflexivity.
Qed.

Lemma all_space_headerless b : all_space b = true -> find_header b = None.
Proof.
  intro H. pose proof (find_header_spaces b [] H) as F.
  rewrite app_nil_r, find_header_nil in F. exact F.
Qed.

(** The kinds of lines in words: a blank line is whitespace only, a header
    line a header between whitespace, a line of text a line without
    header that is not blank. *)

Lemma header_free_iff s : header_free s = true <-> ~ holds_header s.
Proof.
  rewrite <- find_header_none_iff. unfold header_free, re_search.
  rewrite search_from_HEADER.
  destruct (find_header s) as [[[[pre a] b] r]|]; cbn [found negb];
    split; intro H; try reflexivity; discriminate H.
Qed.

Lemma header_text_inked a b : header_text a b <> [].
Proof. discriminate. Qed.

Lemma kind_blank_iff l : kind_of l = Blank <-> all_space l = true.
Proof.
  split; [now intros H%kind_blank|].
  intro A. unfold kind_of.
  pose proof (all_space_no_ink _ A) as I. rewrite strip_ink in I.
  destruct (strip l) as [|c t]; [|discriminate I].
  rewrite parse_header_nil.
  assert (F : header_free l = true)
    by (apply header_free_iff, find_header_none_iff; now apply all_space_headerless).
  now rewrite F.
Qed.

Lemma kind_header_iff l a b :
  kind_of l = Header a b <->
  is_clock a /\ is_clock b /\
  exists pre post,
    l = pre ++ header_text a b ++ post /\
    all_space pre = true /\ all_space post = true.
Proof.
  split.
  - intros (E & Ca & Cb)%kind_header. repeat split; auto.
    destruct (strip_spec l) as (pre & post & El & Ap & Aq & _).
    rewrite E in El. now exists pre, post.
  - intros (Ca & Cb & pre & post & -> & Ap & Aq). unfold kind_of.
    rewrite (strip_padded pre post _ Ap Aq (header_trim_ok a b)
               (header_text_inked a b)).
    pose proof (parse_header_intro a b [] Ca Cb) as P.
    rewrite app_nil_r in P. now rewrite P.
Qed.

Lemma headerless_strip c : find_header c = None -> parse_header (strip c) = None.
Proof.
  intro F. destruct (strip_spec c) as (pre & post & E & Ap & _ & _).
  rewrite E, (find_header_spaces pre _ Ap) in F.
  destruct (find_header (strip c ++ post)) as [[[[x a] b] r]|] eqn:G;
    [discriminate F|].
  apply find_header_none_parse in G.
  destruct (parse_header (strip c)) as [[[a b] r]|] eqn:P; [|reflexivity].
  apply parse_header_inv in P as (Ca & Cb & P).
  rewrite P, <- app_assoc, (parse_header_intro a b _ Ca Cb) in G.
  discriminate G.
Qed.

Lemma kind_text_iff l t :
  kind_of l = Text t <-> t <> [] /\ is_trim_of t l /\ ~ holds_header l.
Proof.
  split.
  - intros (E & N & _ & F)%kind_text. repeat split; auto.
    + rewrite <- E. apply strip_spec.
    + now apply find_header_none_iff.
  - intros (N & (pre & post & El & Ap & Aq & T) & H).
    assert (E : strip l = t) by (rewrite El; now apply strip_padded).
    apply find_header_none_iff in H.
    unfold kind_of. rewrite (headerless_strip l H), E.
    assert (F : header_free l = true)
      by now apply header_free_iff, find_header_none_iff.
    rewrite F. destruct t; [contradiction|reflexivity].
Qed.

(** *** The extractor *)

Lemma extract_step_strip st n l :
  extract_step st (n, l) = extract_step st (n, strip l).
Proof.
  destruct st as [segments cur]. unfold extract_step.
  now rewrite (strip_fix _ (strip_ok l)).
Qed.

Lemma gathered_flush st p :
  extractor_at p (snd st) ->
  map raw_unit (gathered st) = map raw_unit (fst st) ++ flush p.
Proof.
  destruct st as [segments cur]. unfold gathered. cbn [fst snd].
  destruct p as [|a b [t|]]; cbn [extractor_at flush].
  - intros C. rewrite C. cbn [non_empty]. now rewrite !app_nil_r.
  - intros (Ts & C & N & T). rewrite C.
    assert (E : non_empty ([] ++ t ++ str " ") = true)
      by (destruct t; [contradiction|reflexivity]).
    rewrite E, map_app. f_equal. cbn [map]. f_equal.
    destruct cur as [ts c ln]. cbn in Ts, C. subst ts c.
    now apply raw_unit_written.
  - intros (C & _). rewrite C. cbn [non_empty]. now rewrite !app_nil_r.
Qed.

Lemma extractor_follows_layout ls :
  forall ns st p,
    length ns = length ls ->
    extractor_at p (snd st) ->
    laid_out p ls = true ->
    map raw_unit (gathered (fold_left extract_step (combine ns ls) st))
    = map raw_unit (fst st) ++ layout_units p ls.
Proof.
  induction ls as [|l ls IH]; intros ns st p Hn Hp Hl.
  - destruct ns; cbn [combine fold_left layout_units]; now apply gathered_flush.
  - destruct ns as [|n ns]; [discriminate|]. injection Hn as Hn.
    cbn [combine fold_left]. cbn [laid_out layout_units] in *.
    destruct (kind_of l) as [|a b|t|] eqn:K.
    + apply kind_blank in K as [E _].
      rewrite extract_step_strip, E, extract_step_blank.
      replace (match p with Start | _ => layout_units p ls end)
        with (layout_units p ls) by (destruct p as [|? ? [?|]]; reflexivity).
      apply IH; auto; destruct p as [|? ? [?|]]; exact Hl.
    + apply kind_header in K as (E & Ca & Cb).
      rewrite extract_step_strip, E, extract_step_header by assumption.
      assert (Hl' : laid_out (Open a b None) ls = true)
        by (destruct p as [|? ? [?|]]; exact Hl).
      rewrite (IH ns _ (Open a b None) Hn); [|cbn; auto|exact Hl'].
      cbn [fst]. rewrite (gathered_flush st p Hp), <- app_assoc.
      destruct p as [|? ? [?|]]; reflexivity.
    + apply kind_text in K as (E & N & P & F).
      destruct p as [|a b [u|]]; try discriminate.
      destruct st as [segments cur]. cbn [snd] in Hp. destruct Hp as (C & Ts).
      rewrite extract_step_strip, E.
      assert (T : trim_ok t) by (rewrite <- E; apply strip_ok).
      rewrite extract_step_text by assumption.
      rewrite (IH ns _ (Open a b (Some t)) Hn); [reflexivity| |exact Hl].
      cbn [snd extractor_at timestamp content]. rewrite C. auto.
    + destruct p as [|? ? [?|]]; discriminate.
Qed.

Lemma extractor_units_layout text :
  laid_out Start (split_on LF text) = true ->
  extractor_units text = layout_units Start (split_on LF text).
Proof.
  intro H. unfold extractor_units.
  change (map (fun e => (timestamp e, strip (content e))))
    with (map raw_unit).
  rewrite extract_segments_gathered. unfold enumerate.
  rewrite (extractor_follows_layout (split_on LF text) _ _ Start);
    [reflexivity|apply length_seq|reflexivity|exact H].
Qed.

(** *** The segmenter *)

Lemma find_header_joined b s :
  find_header b = None ->
  find_header (b ++ LF :: s) = shift (b ++ [LF]) (find_header s).
Proof.
  intro H. rewrite (find_header_clean b s H), find_header_LF.
  now rewrite shift_shift.
Qed.

Lemma headerless_joined b l :
  find_header b = None -> find_header l = None ->
  find_header (b ++ LF :: l) = None.
Proof. intros Hb Hl. now rewrite (find_header_joined b l Hb), Hl. Qed.

Lemma units_after_last fuel a b s :
  find_header s = None -> units_after fuel a b s = [(a, b, s)].
Proof. intro H. destruct fuel; cbn [units_after]; [reflexivity|now rewrite H]. Qed.

Lemma unit_pairs_cons a b body us :
  unit_pairs ((a, b, body) :: us) = unit_pairs [(a, b, body)] ++ unit_pairs us.
Proof.
  unfold unit_pairs. cbn [map filter trimmed].
  destruct (has_text (a, b, strip body)); reflexivity.
Qed.

Lemma body_flush a b t body :
  body_at t body -> unit_pairs [(a, b, body)] = flush (Open a b t).
Proof.
  unfold unit_pairs. cbn [map filter trimmed]. unfold has_text. cbn [snd].
  destruct t as [t|]; cbn [body_at flush].
  - intros (N & pre & post & -> & A & A' & T).
    rewrite (strip_padded pre post t A A' T N).
    destruct t; [contradiction|reflexivity].
  - intro A. pose proof (all_space_no_ink _ A) as I.
    rewrite strip_ink in I. now rewrite I.
Qed.

Lemma body_at_more t body w :
  body_at t body -> all_space w = true -> body_at t (body ++ LF :: w).
Proof.
  destruct t as [t|]; cbn [body_at].
  - intros (N & pre & post & -> & A & A' & T) W. split; [exact N|].
    exists pre, (post ++ LF :: w). rewrite <- !app_assoc.
    repeat split; auto; try apply T.
    rewrite all_space_app, A'. exact W.
  - intros A W. rewrite all_space_app, A. exact W.
Qed.

Lemma body_at_text body l :
  all_space body = true -> strip l <> [] ->
  body_at (Some (strip l)) (body ++ LF :: l).
Proof.
  intros A N. split; [exact N|].
  destruct (strip_spec l) as (pre & post & E & Ap & Aq & T).
  exists (body ++ LF :: pre), post.
  repeat split; auto; try apply T.
  - rewrite E at 1. rewrite <- app_assoc. reflexivity.
  - rewrite all_space_app, A. exact Ap.
Qed.

Lemma tail_text_cons l ls : tail_text (l :: ls) = LF :: l ++ tail_text ls.
Proof. reflexivity. Qed.

(** The header of a header line, found behind a body without headers. *)
Lemma find_header_line body l rest a b :
  find_header body = None ->
  strip l = header_text a b -> is_clock a -> is_clock b ->
  exists pre post,
    all_space pre = true /\ all_space post = true /\
    find_header (body ++ LF :: l ++ rest)
    = Some (body ++ LF :: pre, a, b, post ++ rest).
Proof.
  intros Hb E Ca Cb.
  destruct (strip_spec l) as (pre & post & El & Ap & Aq & _).
  rewrite E in El. exists pre, post. repeat split; auto.
  rewrite (find_header_joined body _ Hb).
  rewrite El at 1. rewrite <- !app_assoc.
  rewrite (find_header_spaces pre _ Ap).
  rewrite (find_header_hit _ a b (post ++ rest))
    by now apply parse_header_intro.
  cbn [shift]. rewrite app_nil_r, <- app_assoc. reflexivity.
Qed.

Lemma open_units ls :
  forall fuel a b t body,
    body_at t body -> find_header body = None ->
    laid_out (Open a b t) ls = true ->
    (length (body ++ tail_text ls) <= fuel)%nat ->
    unit_pairs (units_after fuel a b (body ++ tail_text ls))
    = layout_units (Open a b t) ls.
Proof.
  induction ls as [|l ls IH]; intros fuel a b t body Hb Hh Hl Hf.
  - cbn [tail_text flat_map]. rewrite app_nil_r.
    rewrite (units_after_last fuel a b body Hh). now apply body_flush.
  - rewrite tail_text_cons in *. cbn [laid_out layout_units] in *.
    destruct (kind_of l) as [|a' b'|u|] eqn:K.
    + apply kind_blank in K as [E A].
      replace (body ++ LF :: l ++ tail_text ls)
        with ((body ++ LF :: l) ++ tail_text ls) in *
        by (now rewrite <- app_assoc).
      apply IH; auto.
      * now apply body_at_more.
      * apply headerless_joined; [exact Hh|now apply all_space_headerless].
    + apply kind_header in K as (E & Ca & Cb).
      destruct (find_header_line body l (tail_text ls) a' b' Hh E Ca Cb)
        as (pre & post & Ap & Aq & F).
      destruct fuel as [|f].
      { rewrite length_app in Hf. cbn [length] in Hf. lia. }
      cbn [units_after]. rewrite F.
      rewrite unit_pairs_cons.
      rewrite (body_flush a b t (body ++ LF :: pre))
        by now apply body_at_more.
      f_equal. apply IH.
      * exact Aq.
      * now apply all_space_headerless.
      * exact Hl.
      * apply find_header_shorter in F. lia.
    + apply kind_text in K as (E & N & P & F).
      destruct t as [t|]; [discriminate|].
      replace (body ++ LF :: l ++ tail_text ls)
        with ((body ++ LF :: l) ++ tail_text ls) in *
        by (now rewrite <- app_assoc).
      apply IH; auto.
      * rewrite <- E. apply body_at_text; [exact Hb|now rewrite E].
      * now apply headerless_joined.
    + discriminate.
Qed.

Lemma start_units ls :
  forall body,
    all_space body = true ->
    laid_out Start ls = true ->
    unit_pairs (header_units (body ++ tail_text ls)) = layout_units Start ls.
Proof.
  induction ls as [|l ls IH]; intros body Hb Hl.
  - cbn [tail_text flat_map]. rewrite app_nil_r. unfold header_units.
    now rewrite (all_space_headerless body Hb).
  - rewrite tail_text_cons. cbn [laid_out layout_units] in *.
    destruct (kind_of l) as [|a' b'|u|] eqn:K.
    + apply kind_blank in K as [E A].
      replace (body ++ LF :: l ++ tail_text ls)
        with ((body ++ LF :: l) ++ tail_text ls)
        by (now rewrite <- app_assoc).
      apply IH; auto. rewrite all_space_app, Hb. exact A.
    + apply kind_header in K as (E & Ca & Cb).
      destruct (find_header_line body l (tail_text ls) a' b'
                  (all_space_headerless body Hb) E Ca Cb)
        as (pre & post & Ap & Aq & F).
      unfold header_units. rewrite F. cbn [flush app].
      apply open_units; auto.
      * now apply all_space_headerless.
      * apply find_header_shorter in F. lia.
    + discriminate.
    + discriminate.
Qed.

Lemma tail_text_split s : tail_text (split_on LF s) = LF :: s.
Proof.
  induction s as [|c s IH]; [reflexivity|].
  cbn [split_on]. destruct (c =? LF) eqn:E.
  - apply N.eqb_eq in E. subst c. rewrite tail_text_cons, IH. reflexivity.
  - destruct (split_on LF s) as [|l ls] eqn:S; [discriminate IH|].
    rewrite tail_text_cons in *. injection IH as IH.
    cbn [app]. now rewrite IH.
Qed.

Lemma header_units_LF s : header_units (LF :: s) = header_units s.
Proof.
  unfold header_units. rewrite find_header_LF.
  destruct (find_header s) as [[[[pre a] b] r]|] eqn:F; [|reflexivity].
  cbn [shift]. apply find_header_shorter in F.
  apply units_after_fuels; cbn [length]; lia.
Qed.

Lemma segmenter_units_pairs text :
  segmenter_units text = unit_pairs (header_units text).
Proof.
  unfold segmenter_units, unit_pairs.
  pose proof (fold_add_unit_keys (header_units text) []) as K.
  rewrite <- process_segments_units in K. cbn [map app] in K.
  rewrite <- K, map_map. reflexivity.
Qed.

Lemma segmenter_units_layout text :
  laid_out Start (split_on LF text) = true ->
  segmenter_units text = layout_units Start (split_on LF text).
Proof.
  intro H. rewrite segmenter_units_pairs, <- header_units_LF.
  rewrite <- (start_units (split_on LF text) [] eq_refl H).
  cbn [app]. now rewrite tail_text_split.
Qed.

(** *** The pipeline's own output

    What [main] writes is laid out so, when no corrected text holds a line
    feed or a timestamp header; a corrected text may be empty. *)

Lemma kind_of_header a b :
  is_clock a -> is_clock b -> kind_of (header_text a b) = Header a b.
Proof.
  intros Ca Cb. unfold kind_of.
  rewrite (strip_fix _ (header_trim_ok a b)).
  pose proof (parse_header_intro a b [] Ca Cb) as P.
  rewrite app_nil_r in P. now rewrite P.
Qed.

Lemma kind_of_headerless c :
  header_free c = true ->
  kind_of c = match strip c with [] => Blank | x :: t => Text (x :: t) end.
Proof.
  intro F. unfold kind_of.
  now rewrite (headerless_strip c (header_free_none c F)), F.
Qed.

Lemma laid_out_header l ls a b p :
  kind_of l = Header a b -> laid_out p (l :: ls) = laid_out (Open a b None) ls.
Proof.
  intro K. cbn [laid_out]. rewrite K. destruct p as [|? ? [?|]]; reflexivity.
Qed.

Lemma laid_out_blank l ls p :
  kind_of l = Blank -> laid_out p (l :: ls) = laid_out p ls.
Proof.
  intro K. cbn [laid_out]. rewrite K. destruct p as [|? ? [?|]]; reflexivity.
Qed.

Lemma laid_out_text l ls a b t :
  kind_of l = Text t ->
  laid_out (Open a b None) (l :: ls) = laid_out (Open a b (Some t)) ls.
Proof. intro K. cbn [laid_out]. now rewrite K. Qed.

Lemma output_lines_laid_out rs :
  Forall well_formed rs ->
  forallb (fun r => header_free (corrected r)) rs = true ->
  forall p, laid_out p (output_lines rs) = true.
Proof.
  intros Hw Hf. induction rs as [|r rs IH]; intro p.
  - destruct p as [|? ? [?|]]; reflexivity.
  - inversion Hw as [|x xs (Ca & Cb & T) Hw']; subst.
    cbn [forallb] in Hf. apply andb_true_iff in Hf as [F Hf].
    change (output_lines (r :: rs))
      with (header_text (start_time r) (end_time r) :: corrected r :: []
              :: output_lines rs).
    rewrite (laid_out_header _ _ _ _ p (kind_of_header _ _ Ca Cb)).
    pose proof (kind_of_headerless _ F) as K.
    destruct (strip (corrected r)) as [|x t].
    + rewrite (laid_out_blank _ _ _ K), (laid_out_blank [] _ _ eq_refl).
      now apply IH.
    + rewrite (laid_out_text _ _ _ _ _ K), (laid_out_blank [] _ _ eq_refl).
      now apply IH.
Qed.

Lemma written_output_laid_out rs :
  Forall well_formed rs ->
  forallb (fun r => one_line (corrected r) && header_free (corrected r)) rs
  = true ->
  laid_out Start (split_on LF (write_output rs)) = true.
Proof.
  intros Hw H. rewrite forallb_forall in H.
  rewrite split_on_written; [|exact Hw|].
  - apply output_lines_laid_out; [exact Hw|].
    apply forallb_forall. intros r Hin. specialize (H r Hin).
    now apply andb_true_iff in H as [_ F].
  - apply Forall_forall. intros r Hin. specialize (H r Hin).
    now apply andb_true_iff in H as [O _].
Qed.

(** So the extractor and the segmenter read the pipeline's output alike,
    also where a corrected text is empty. *)
Lemma extractor_reads_pipeline_output rs :
  Forall well_formed rs ->
  forallb (fun r => one_line (corrected r) && header_free (corrected r)) rs
  = true ->
  extractor_units (write_output rs) = segmenter_units (write_output rs).
Proof.
  intros Hw H. pose proof (written_output_laid_out rs Hw H) as L.
  now rewrite extractor_units_layout, segmenter_units_layout.
Qed.

Lemma extractor_reads_emptied_segment :
  let written :=
    write_output (process_segments (str "[0:00:01 - 0:00:05] えー")) in
  laid_out Start (split_on LF written) = true /\
  extractor_units written = [] /\ segmenter_units written = [].
Proof. vm_compute. repeat split; reflexivity. Qed.

(** Text before the first header is a unit for the extractor and none for
    the segmenter. *)
Lemma extractor_keeps_preamble :
  let text := str "はじめに
[0:00:01 - 0:00:05]
本日は" in
  extractor_units text
  = [([], str "はじめに"); (str "[0:00:01 - 0:00:05]", str "本日は")] /\
  segmenter_units text = [(str "[0:00:01 - 0:00:05]", str "本日は")].
Proof. vm_compute. split; reflexivity. Qed.

(** A header inside a line of text cuts the text for the segmenter and not
    for the extractor. *)
Lemma extractor_ignores_inner_header :
  let text := str "[0:00:01 - 0:00:05]
a [0:00:02 - 0:00:03] b" in
  extractor_units text
  = [(str "[0:00:01 - 0:00:05]", str "a [0:00:02 - 0:00:03] b")] /\
  segmenter_units text
  = [(str "[0:00:01 - 0:00:05]", str "a");
     (str "[0:00:02 - 0:00:03]", str "b")].
Proof. vm_compute. split; reflexivity. Qed.

(** Several lines of text are joined with spaces by the extractor; the
    segmenter keeps the line feeds. *)
Lemma extractor_joins_lines :
  let text := str "[0:00:01 - 0:00:05]
a
b" in
  extractor_units text = [(str "[0:00:01 - 0:00:05]", str "a b")] /\
  segmenter_units text = [(str "[0:00:01 - 0:00:05]", str "a
b")].
Proof. vm_compute. split; reflexivity. Qed.

(** C7, amended. For every input text in which only blank lines precede
    the first timestamp header, every header stands alone on its line
    (whitespace around it apart), and at most one line after each header
    holds text, that line holding no header, [extract_segments_improved]
    yields the same sequence of (timestamp header, trimmed content) units
    as [process_segments] yields as (start/end header, original text). *)
Theorem extractor_agrees_on_laid_out_text (text : pystr) :
  laid_out Start (split_on LF text) = true ->
  extractor_units text = segmenter_units text.
Proof.
  intro H. now rewrite extractor_units_layout, segmenter_units_layout.
Qed.

Lemma extractor_agrees_on_laid_out_text_witness :
  let text := str "[0:00:01 - 0:00:27]
皆さんこんばんは、松尾研究室の川崎と申します

[0:00:27 - 0:00:58]
  はい。本日ですねDay2になるDay2の講座になります
" in
  laid_out Start (split_on LF text) = true /\
  extractor_units text = segmenter_units text.
Proof.
  cbv zeta.
  match goal with
  | |- ?h /\ _ => assert (H : h) by (vm_compute; reflexivity)
  end.
  split; [exact H|]. exact (extractor_agrees_on_laid_out_text _ H).
Defined.

(** * Further properties of the sources *)

(** ** [calculate_overall_metrics] *)

Lemma len_zero s : len s = 0%Z <-> s = [].
Proof.
  unfold len. destruct s; simpl; split; intro H; try reflexivity;
    try discriminate; lia.
Qed.

Lemma py_div_some a b : b <> 0%Z -> exists q, py_div a b = Some q.
Proof. destruct b; [contradiction| |]; intros _; simpl; eauto. Qed.

(** X1. [calculate_overall_metrics] raises [ZeroDivisionError] exactly when
    the original text is empty; the second ratio is guarded and never
    raises. *)
Theorem overall_metrics_raise_iff (original corrected : pystr) :
  calculate_overall_metrics original corrected = None <-> original = [].
Proof.
  unfold calculate_overall_metrics. split.
  - destruct (py_div (len original - len corrected) (len original)) as [q|] eqn:E.
    + destruct (non_empty (words corrected) && non_empty (words original)) eqn:G;
        [|discriminate].
      apply andb_true_iff in G as [Gc Go].
      destruct (py_div_some (count_of "。、" corrected) (word_count corrected))
        as [dc ->].
      { unfold word_count. destruct (words corrected); [discriminate|simpl; lia]. }
      destruct (py_div_some (count_of "。、" original) (word_count original))
        as [d0 ->].
      { unfold word_count. destruct (words original); [discriminate|simpl; lia]. }
      discriminate.
    + intros _. apply len_zero.
      destruct (len original) eqn:L; try discriminate. reflexivity.
  - intros ->. reflexivity.
Qed.

(** ** The average printed by [main] of [final_system.py] *)

(** X2. [sum(r['quality'] for r in results)/len(results)] raises
    [ZeroDivisionError] exactly when no segment was produced. *)
Theorem report_average_raise_iff (results : list segment) :
  report_average results = None <-> results = [].
Proof.
  unfold report_average, py_div_q. split.
  - destruct results as [|r rs]; [reflexivity|].
    cbn [length]. rewrite Nat2Z.inj_succ.
    destruct (Z.succ (Z.of_nat (length rs))) eqn:E; [lia|discriminate|discriminate].
  - intros ->. reflexivity.
Qed.

(** ** [detect_deterioration] *)

Lemma starts_with_tail (x : codepoint) (l s : pystr) :
  starts_with (x :: l) s = true -> contains l (tl s) = true.
Proof.
  destruct s as [|y s]; simpl; [discriminate|]. intro H.
  apply andb_true_iff in H as [_ H].
  destruct s; simpl in *; now rewrite H.
Qed.

Lemma contains_cons (x : codepoint) (s : pystr) (l : pystr) :
  contains l s = true -> contains l (x :: s) = true.
Proof. intro H. cbn [contains]. rewrite H. apply orb_true_r. Qed.

Lemma contains_tail (x : codepoint) (l s : pystr) :
  contains (x :: l) s = true -> contains l s = true.
Proof.
  induction s as [|y s IH]; intro H.
  - simpl in H. discriminate.
  - cbn [contains] in H. apply orb_true_iff in H as [H|H].
    + apply contains_cons. exact (starts_with_tail x l (y :: s) H).
    + apply contains_cons. now apply IH.
Qed.

Lemma full_phrase :
  str "ありがとうございます" = chr "あ" :: str "りがとうございます".
Proof. vm_compute. reflexivity. Qed.

(** X3. [detect_deterioration] reports a deterioration whenever the phrase
    ありがとうございます occurs in the original and in the corrected text:
    the test for the truncated phrase りがとうございます also holds where the
    full phrase is kept. *)
Theorem deterioration_on_kept_phrase (original corrected : pystr) :
  contains (str "ありがとうございます") original = true ->
  contains (str "ありがとうございます") corrected = true ->
  detect_deterioration original corrected = true.
Proof.
  intros Ho Hc. unfold detect_deterioration. rewrite Ho.
  rewrite full_phrase in Hc.
  now rewrite (contains_tail _ _ _ Hc).
Qed.

Lemma deterioration_on_kept_phrase_witness :
  contains (str "ありがとうございます") (str "ありがとうございます。") = true /\
  detect_deterioration (str "ありがとうございます。") (str "ありがとうございます。")
  = true.
Proof.
  assert (H : contains (str "ありがとうございます") (str "ありがとうございます。")
              = true) by (vm_compute; reflexivity).
  split; [exact H|]. exact (deterioration_on_kept_phrase _ _ H H).
Defined.

(** ** [detect_corrections_improved] *)

Lemma when_all (P : pystr -> Prop) (b : bool) (tag : string) :
  P (str tag) -> Forall P (when b tag).
Proof. intro H. destruct b; cbn [when]; auto. Qed.

Lemma when_length (b : bool) (tag : string) : (length (when b tag) <= 1)%nat.
Proof. destruct b; cbn; lia. Qed.

(** X4. Every tag that [detect_corrections_improved] returns is a key of
    the weight table of [calculate_realistic_quality_score], so the default
    weight 0.02 is never used on the auditor's own tags; it returns at most
    nine tags ("technical_terms" once for each of the four terms). *)
Theorem detector_tags_are_weighted (original corrected : pystr) :
  Forall (fun tag => In tag (map fst correction_weights))
         (detect_corrections_improved original corrected) /\
  (length (detect_corrections_improved original corrected) <= 9)%nat.
Proof.
  unfold detect_corrections_improved, tech_replacements.
  cbn [flat_map fst snd]. rewrite app_nil_r. split.
  - repeat (apply Forall_app; split); apply when_all; vm_compute; auto 10.
  - rewrite !length_app.
    repeat match goal with
           | |- context [length (when ?b ?t)] =>
               let H := fresh in
               pose proof (when_length b t) as H;
               generalize dependent (length (when b t)); intros
           end.
    lia.
Qed.

(** ** [NovaCorrector.enhanced_correct_text] *)

Lemma call_nova_micro_accounts (self : corrector) (prompt : pystr) :
  bedrock_client (fst (call_nova_micro self prompt)) = bedrock_client self /\
  (total_input_tokens self
   <= total_input_tokens (fst (call_nova_micro self prompt)))%nat /\
  (total_output_tokens self
   <= total_output_tokens (fst (call_nova_micro self prompt)))%nat.
Proof.
  unfold call_nova_micro.
  destruct (bedrock_client self) as [invoke|] eqn:B; [|cbn; rewrite B; auto].
  destruct (invoke prompt) as [|i o content]; [cbn; rewrite B; auto|].
  destruct content as [[|first rest]|]; cbn; repeat split; auto; lia.
Qed.

(** X5. The LLM stage never lowers the score of the rule stage and never
    raises it above 1; it leaves the log of the rule stage as it is or adds
    the one entry "LLM文脈修正"; the client is kept and the token counters
    do not decrease. *)
Theorem enhanced_quality_bounds (self : corrector) (text : pystr) :
  let '(self', (_, log, q)) := enhanced_correct_text self text in
  (snd (correct_text text) <= q <= 1)%Q /\
  (log = snd (fst (correct_text text)) \/
   log = snd (fst (correct_text text)) ++ [LLM_CONTEXT]) /\
  bedrock_client self' = bedrock_client self /\
  (total_input_tokens self <= total_input_tokens self')%nat /\
  (total_output_tokens self <= total_output_tokens self')%nat.
Proof.
  unfold enhanced_correct_text.
  pose proof (correct_text_quality text) as Q0.
  destruct (correct_text text) as [[fixed log] q]. cbn [fst snd app] in *.
  pose proof (simple_quality_bounds log) as [B1 B2]. rewrite <- Q0 in B1, B2.
  assert (Same : (q <= q <= 1)%Q) by (split; [apply Qle_refl|exact B2]).
  destruct (needs_llm_correction fixed); [|repeat split; auto; apply Same].
  pose proof (call_nova_micro_accounts self (create_correction_prompt fixed))
    as (A1 & A2 & A3).
  destruct (call_nova_micro self (create_correction_prompt fixed))
    as [self' res]. cbn [fst] in *.
  destruct res as [[|c r]|]; try (repeat split; auto; apply Same).
  destruct (negb (str_eqb (c :: r) fixed));
    [|repeat split; auto; apply Same].
  repeat split; auto.
  - apply Q.min_glb; lra.
  - apply Q.le_min_l.
Qed.

(** ** [BatchProcessor.save_batch_stats] *)


(** ** [NovaCorrector.process_segments_enhanced] *)

Lemma enhanced_loop (segments : list pystr) (indices : list nat) :
  forall self enhanced results,
    map enhanced_key enhanced = map rule_key results ->
    map enhanced_key
        (snd (fold_left (enhanced_step segments) indices (self, enhanced)))
    = map rule_key (fold_left (segment_step segments) indices results).
Proof.
  induction indices as [|i indices IH]; intros self rn rs H; cbn [fold_left];
    [exact H|].
  assert (L : length rn = length rs).
  { rewrite <- (length_map enhanced_key), H. apply length_map. }
  destruct (enhanced_step segments (self, rn) i) as [self' rn'] eqn:E.
  apply IH.
  unfold enhanced_step in E. unfold segment_step.
  destruct (Nat.ltb (i + 1) (length segments));
    [|injection E as <- <-; exact H].
  destruct (strip (nth (i + 1) segments [])) as [|c content];
    [injection E as <- <-; exact H|].
  destruct (read_times (nth i segments [])) as [start stop].
  destruct (enhanced_correct_text self (c :: content)) as [s2 [[f l] q]].
  destruct (correct_text (c :: content)) as [[f' l'] q'].
  injection E as <- <-. rewrite !map_app, H, L. reflexivity.
Qed.

(** X7. [process_segments_enhanced] cuts a transcript into the same
    segments as [process_segments]: the same ids, start and end times and
    original texts, in the same order, whatever the LLM client answers. *)
Theorem enhanced_segments_as_rule_segments (self : corrector) (text : pystr) :
  map enhanced_key (snd (process_segments_enhanced self text))
  = map rule_key (process_segments text).
Proof.
  unfold process_segments_enhanced, process_segments. now apply enhanced_loop.
Qed.

(** ** The lightweight score in double precision *)

Lemma simple_quality_length (log : list pystr) :
  simple_quality log = simple_quality (repeat [] (length log)).
Proof. unfold simple_quality. now rewrite repeat_length. Qed.

Lemma score_b64_table (n : nat) : (n <= 26)%nat -> b64_agrees n = true.
Proof.
  intro H.
  assert (T : forallb b64_agrees (seq 0 27) = true) by (vm_compute; reflexivity).
  rewrite forallb_forall in T. apply T, in_seq. lia.
Qed.

(** X8. The lightweight score in double precision: for every text the
    binary64 value of [min(1.0, len(corrections_log) / 5 + 0.3)] is 0.3,
    0.5, 0.7, 0.8999999999999999 or 1.0 by the number of log entries, and
    lies within 2^-53 of the rational score of the model. *)
Theorem correct_text_quality_b64 (text : pystr) :
  let '(_, log, q) := correct_text text in
  exists v,
    same_b64 (simple_quality_b64 log) (listed_score (length log)) = true /\
    Q_of_float (simple_quality_b64 log) = Some v /\
    (Qabs (v - q) <= 1 # 2 ^ 53)%Q.
Proof.
  unfold correct_text.
  pose proof (rule_stages_log text) as L. pose proof (hits_bound text) as B.
  destruct (rule_stages text) as [fixed log]. cbn [snd] in L.
  assert (N : (length log <= 26)%nat) by (now rewrite L, length_map).
  pose proof (score_b64_table _ N) as A. unfold b64_agrees in A.
  apply andb_true_iff in A as [A1 A2].
  unfold simple_quality_b64.
  destruct (Q_of_float (score_b64 (length log))) as [v|]; [|discriminate A2].
  exists v. repeat split; [exact A1|].
  rewrite simple_quality_length. now apply Qle_bool_iff.
Qed.

(** Three entries score 0.8999999999999999, which is not the binary64
    number 0.9. *)
Lemma score_b64_three :
  same_b64 (score_b64 3) (listed_score 3) = true /\
  same_b64 (score_b64 3) nine_tenths = false.
Proof. vm_compute. split; reflexivity. Qed.

(** ** The auditor on the output of the pipeline *)

(** X9. [extract_segments_improved] reads the file written by [main] as
    [process_segments] does, whenever no corrected text holds a line feed
    or a timestamp header; a corrected text may be empty. *)
Theorem auditor_reads_pipeline_output (text : pystr) :
  forallb (fun r => one_line (corrected r) && header_free (corrected r))
          (process_segments text) = true ->
  extractor_units (write_output (process_segments text))
  = segmenter_units (write_output (process_segments text)).
Proof.
  intro H. apply extractor_reads_pipeline_output;
    [apply process_segments_well_formed|exact H].
Qed.

Lemma auditor_reads_pipeline_output_witness :
  let text := str "[0:00:01 - 0:00:05] えー [0:00:05 - 0:00:09] 申しす" in
  forallb (fun r => one_line (corrected r) && header_free (corrected r))
          (process_segments text) = true /\
  extractor_units (write_output (process_segments text))
  = segmenter_units (write_output (process_segments text)).
Proof.
  cbv zeta.
  match goal with
  | |- ?h /\ _ => assert (H : h) by (vm_compute; reflexivity)
  end.
  split; [exact H|]. exact (auditor_reads_pipeline_output _ H).
Defined.

(** ** The cleanup of [correct_text] *)

(** X10. The corrected text of [correct_text] has no whitespace at its
    start or at its end, and correcting leaves the empty text empty with
    an empty log and the base score. *)
Theorem corrected_text_is_trimmed (text : pystr) :
  space_led (fst (fst (correct_text text))) = false /\
  space_led (rev (fst (fst (correct_text text)))) = false /\
  correct_text [] = ([], [], simple_quality []).
Proof.
  destruct (correct_text_trimmed text) as [H1 H2].
  split; [exact H1|]. split; [exact H2|]. vm_compute. reflexivity.
Qed.
